(** * The Dungeon Crawler game ([project 2/dungeon.py])

    A shallow embedding of the turn-based dungeon engine (legal actions,
    successor, terminal test, turn sequencing), of the monster agent, and of
    the reading and drawing of maps ([from_text], [__str__]), followed by
    the properties of the engine that the specification states about them
    and by further properties read off the code.

    Python integers are unbounded, hence [Z]; Python sets of points are
    [gset Point]; a Python list is a [list], indexed the way Python indexes
    it (negative indices count from the end, anything else out of range
    raises [IndexError], which is [None] here).  Python floats are binary64
    numbers; the operations on them that raise [OverflowError] return
    [None] when they do.  *)

From Stdlib Require Import ZArith List Lia Bool Ascii.
From Stdlib Require PrimFloat SpecFloat FloatOps.
From stdpp Require Import base option gmap sets list sorting strings pretty.

Local Open Scope Z_scope.

(* stdpp's solvers clear hypotheses by name; the names need not exist *)
#[local] Set Warnings "-clear-no-such-hyp".

(** ** mathutils: points and directions *)

(** Modelled from the spec: [mathutils.Point] is not part of the sources at
    hand.  It is a pair of integers with coordinate-wise addition, compared
    and hashed by coordinate. *)
Definition Point : Type := Z * Z.

Definition point_add (p q : Point) : Point := (p.1 + q.1, p.2 + q.2).

(** Modelled from the spec: [mathutils.Direction] is not part of the sources
    at hand.  It is the enumeration with the five members the specification
    lists; [dungeon.py] itself names [Direction.NONE]. *)
Inductive Direction : Type := UP | DOWN | LEFT | RIGHT | NONE.

#[global] Instance Direction_eq_dec : EqDecision Direction.
Proof. solve_decision. Defined.

(** [for direction in Direction]: iterating a Python enumeration yields every
    member, in the order of definition. *)
Definition Direction_members : list Direction := [UP; DOWN; LEFT; RIGHT; NONE].

(** Modelled from the spec: [Direction.to_vector] maps the four movement
    directions to unit vectors and [NONE] to the zero vector.  Rows grow
    downwards, as in [from_text]. *)
Definition to_vector (d : Direction) : Point :=
  match d with
  | UP => (0, -1)
  | DOWN => (0, 1)
  | LEFT => (-1, 0)
  | RIGHT => (1, 0)
  | NONE => (0, 0)
  end.

(** ** Python list indexing *)

(** The position [l[i]] denotes in a list of length [n], if any. *)
Definition py_index (n : nat) (i : Z) : option nat :=
  if bool_decide (0 <= i < Z.of_nat n) then Some (Z.to_nat i)
  else if bool_decide (- Z.of_nat n <= i < 0) then Some (Z.to_nat (Z.of_nat n + i))
  else None.

Definition py_getitem {A : Type} (l : list A) (i : Z) : option A :=
  j ← py_index (length l) i; l !! j.

(** [enumerate(l)] *)
Definition enumerate {A : Type} (l : list A) : list (Z * A) :=
  imap (λ i x, (Z.of_nat i, x)) l.

(** ** The data classes *)

Module DungeonLayout.
Record t : Type := mk {
  width : Z;
  height : Z;
  walkable : gset Point;
  exit : Point
}.
End DungeonLayout.

Module Inventory.
Record t : Type := mk {
  daggers : Z;
  coins : Z;
  keys : Z
}.
End Inventory.

Module Player.
Record t : Type := mk {
  position : Point;
  alive : bool;
  inventory : Inventory.t
}.
End Player.

Module Monster.
Record t : Type := mk {
  position : Point;
  alive : bool
}.
End Monster.

(** ** DungeonTile and the strings of the host language *)

(** The tiles of a map; each stands for the one-character string [value]
    gives, which is what comparing it with a character and joining tiles
    into a string use. *)
Module DungeonTile.
Inductive t : Type := EMPTY | WALL | COIN | EXIT | PLAYER | MONSTER | DAGGER | KEY.

Definition value (tile : t) : ascii :=
  match tile with
  | EMPTY => "."
  | WALL => "#"
  | COIN => "$"
  | EXIT => "E"
  | PLAYER => "@"
  | MONSTER => "M"
  | DAGGER => "~"
  | KEY => "K"
  end%char.
End DungeonTile.

(** A Python string is taken here as the list of its characters, a
    character being a code point below 256. *)

(** [str.isspace] on one character: tab to carriage return, the four
    separators [\x1c] to [\x1f], the space, [\x85] and [\xa0]. *)
Definition py_isspace (c : ascii) : bool :=
  let n := nat_of_ascii c in
  bool_decide (9 ≤ n ≤ 13 ∨ 28 ≤ n ≤ 32 ∨ n = 133 ∨ n = 160)%nat.

(** The line boundaries of [str.splitlines]: [\n], [\v], [\f], [\r],
    [\x1c], [\x1d], [\x1e] and [\x85]. *)
Definition py_is_linebreak (c : ascii) : bool :=
  let n := nat_of_ascii c in
  bool_decide (10 ≤ n ≤ 13 ∨ 28 ≤ n ≤ 30 ∨ n = 133)%nat.

(** [str.splitlines()]: [cur] holds, reversed, the characters of the line
    being read.  A line ends at each boundary, [\r\n] counting as one; what
    follows the last boundary is a line only if it is not empty. *)
Fixpoint py_splitlines_from (cur : list ascii) (s : list ascii) : list (list ascii) :=
  match s with
  | [] => match cur with [] => [] | _ :: _ => [rev cur] end
  | c :: s' =>
      if py_is_linebreak c then
        rev cur ::
          match s' with
          | c' :: s'' =>
              if bool_decide (c = "013"%char ∧ c' = "010"%char)
              then py_splitlines_from [] s''
              else py_splitlines_from [] s'
          | [] => py_splitlines_from [] s'
          end
      else py_splitlines_from (c :: cur) s'
  end.

Definition py_splitlines (s : list ascii) : list (list ascii) :=
  py_splitlines_from [] s.

Fixpoint py_lstrip (s : list ascii) : list ascii :=
  match s with
  | [] => []
  | c :: s' => if py_isspace c then py_lstrip s' else s
  end.

(** [str.strip()] *)
Definition py_strip (s : list ascii) : list ascii :=
  rev (py_lstrip (rev (py_lstrip s))).

(** [max] of a sequence of integers; it raises on an empty one. *)
Definition py_max (l : list Z) : option Z :=
  match l with
  | [] => None
  | x :: l' => Some (fold_left Z.max l' x)
  end.

(** ** The arithmetic of the host language on floats

    [score] and the payoffs of [is_terminal] are Python floats, and the
    monster agent compares a drawn float with a power of two.  The engine
    only combines such values.  Three of the operations it uses raise
    [OverflowError] when their result is too large for a float: the
    conversion of an [int] operand, the true division of two [int]s and the
    power; they return [None] then.  Sums, differences, products and
    negations of floats never raise. *)
Class HostFloat : Type := {
  float : Type;
  float_of_int : Z → option float;     (* conversion of an int operand *)
  float_0_1 : float;                   (* the literal 0.1 *)
  float_1e8 : float;                   (* the literal 1e8 *)
  fadd : float → float → float;
  fsub : float → float → float;
  fmul : float → float → float;
  fneg : float → float;
  int_truediv : Z → Z → option float;        (* int / int, for a divisor other than 0 *)
  int_pow_float : Z → float → option float;  (* int ** float *)
  fgt : float → float → bool           (* > *)
}.

(** The floats of CPython are IEEE 754 binary64 numbers.  An [int] operand
    is rounded to the nearest float, ties to even, and the conversion raises
    when that rounding overflows.  The quotient of two [int]s and the power,
    which CPython takes from its own long division and from the C library,
    are left to [truediv] and [pow]. *)
Module Binary64.
Module Literal.
Import PrimFloat.
Definition tenth : PrimFloat.float := 0x1.999999999999ap-4%float.   (* 0.1 *)
Definition hundred_million : PrimFloat.float := 1e8%float.          (* 1e8 *)
End Literal.

Definition of_int (z : Z) : option PrimFloat.float :=
  match SpecFloat.binary_normalize FloatOps.prec FloatOps.emax z 0 false with
  | SpecFloat.S754_infinity _ => None
  | x => Some (FloatOps.SF2Prim x)
  end.

Section Host.
Variable truediv : Z → Z → option PrimFloat.float.
Variable pow : Z → PrimFloat.float → option PrimFloat.float.

Definition host : HostFloat :=
  {| float := PrimFloat.float;
     float_of_int := of_int;
     float_0_1 := Literal.tenth;
     float_1e8 := Literal.hundred_million;
     fadd := PrimFloat.add;
     fsub := PrimFloat.sub;
     fmul := PrimFloat.mul;
     fneg := PrimFloat.opp;
     int_truediv := truediv;
     int_pow_float := pow;
     fgt := λ x y, PrimFloat.ltb y x |}.
End Host.

(** The arithmetic alone: the quotient and the power, which [score] and
    [is_terminal] do not use, are not provided. *)
Definition arithmetic : HostFloat := host (λ _ _, None) (λ _ _, None).
End Binary64.

(** ** DungeonState *)

Module DungeonState.
Record t : Type := mk {
  time : Z;
  turn : Z;
  layout : DungeonLayout.t;
  player : Player.t;
  coins : gset Point;
  daggers : gset Point;
  keys : gset Point;
  monsters : list Monster.t
}.

(** The [while turn < len(self.monsters)] loop of [next_turn].  It makes at
    most [len(self.monsters) - turn] rounds, which is what [rounds] counts:
    no round is left exactly when the loop condition fails. *)
Fixpoint next_turn_loop (rounds : nat) (ms : list Monster.t) (turn : Z) : option Z :=
  match rounds with
  | O => Some 0
  | S rounds' =>
      m ← py_getitem ms turn;
      if Monster.alive m then Some (turn + 1)
      else next_turn_loop rounds' ms (turn + 1)
  end.

Definition next_turn_from (ms : list Monster.t) (turn : Z) : option Z :=
  next_turn_loop (Z.to_nat (Z.of_nat (length ms) - turn)) ms turn.

Definition next_turn (self : t) : option Z :=
  next_turn_from (monsters self) (turn self).

(** [sum(not monster.alive for monster in self.monsters)] *)
Definition dead_count (ms : list Monster.t) : Z :=
  fold_left (λ acc m, acc + Z.b2z (negb (Monster.alive m))) ms 0.

(** The integer operand of the subtraction in [score]. *)
Definition points (self : t) : Z :=
  Inventory.coins (Player.inventory (player self)) + 10 * dead_count (monsters self).

(** [points - 0.1 * self.time]: the product converts [self.time] to a float,
    then the subtraction converts [points]; [None] when a conversion
    raises. *)
Definition score `{HostFloat} (self : t) : option float :=
  seconds ← float_of_int (time self);
  let penalty := fmul float_0_1 seconds in
  earned ← float_of_int (points self);
  Some (fsub earned penalty).
(** [position_to_str], the local function of [__str__]. *)
Definition position_to_str (self : t) (alive_monsters : gset Point) (position : Point)
  : DungeonTile.t :=
  if bool_decide (position ∉ DungeonLayout.walkable (layout self)) then DungeonTile.WALL
  else if bool_decide (position = Player.position (player self)) then DungeonTile.PLAYER
  else if bool_decide (position ∈ alive_monsters) then DungeonTile.MONSTER
  else if bool_decide (position = DungeonLayout.exit (layout self)) then DungeonTile.EXIT
  else if bool_decide (position ∈ keys self) then DungeonTile.KEY
  else if bool_decide (position ∈ coins self) then DungeonTile.COIN
  else if bool_decide (position ∈ daggers self) then DungeonTile.DAGGER
  else DungeonTile.EMPTY.

(** The rows of the grid [__str__] draws: [height] rows of [width] tiles. *)
Definition grid (self : t) : list (list ascii) :=
  let alive_monsters : gset Point :=
    list_to_set (Monster.position <$> filter (λ m, Monster.alive m = true) (monsters self)) in
  (λ y, (λ x, DungeonTile.value (position_to_str self alive_monsters (x, y)))
          <$> seqZ 0 (DungeonLayout.width (layout self)))
    <$> seqZ 0 (DungeonLayout.height (layout self)).

Definition __str__ (self : t) : string :=
  let header :=
    "Inventory: " +:+ pretty (Inventory.keys (Player.inventory (player self)))
    +:+ " Key(s), " +:+ pretty (Inventory.daggers (Player.inventory (player self)))
    +:+ " Dagger(s), " +:+ pretty (Inventory.coins (Player.inventory (player self)))
    +:+ " Coin(s)" +:+ String "010" "" in
  header +:+ String.concat (String "010" "") (String.string_of_list_ascii <$> grid self).
End DungeonState.

(** Field updates: the assignments [state.x = v] on the copy that
    [get_successor] works on. *)
Module Update.
Import DungeonState.

Definition set_time (s : DungeonState.t) (v : Z) : DungeonState.t :=
  mk v (turn s) (layout s) (player s) (coins s) (daggers s) (keys s) (monsters s).

Definition set_turn (s : DungeonState.t) (v : Z) : DungeonState.t :=
  mk (time s) v (layout s) (player s) (coins s) (daggers s) (keys s) (monsters s).

Definition set_player (s : DungeonState.t) (v : Player.t) : DungeonState.t :=
  mk (time s) (turn s) (layout s) v (coins s) (daggers s) (keys s) (monsters s).

Definition set_coins (s : DungeonState.t) (v : gset Point) : DungeonState.t :=
  mk (time s) (turn s) (layout s) (player s) v (daggers s) (keys s) (monsters s).

Definition set_daggers (s : DungeonState.t) (v : gset Point) : DungeonState.t :=
  mk (time s) (turn s) (layout s) (player s) (coins s) v (keys s) (monsters s).

Definition set_keys (s : DungeonState.t) (v : gset Point) : DungeonState.t :=
  mk (time s) (turn s) (layout s) (player s) (coins s) (daggers s) v (monsters s).

Definition set_monsters (s : DungeonState.t) (v : list Monster.t) : DungeonState.t :=
  mk (time s) (turn s) (layout s) (player s) (coins s) (daggers s) (keys s) v.

Definition set_position (s : DungeonState.t) (v : Point) : DungeonState.t :=
  set_player s (Player.mk v (Player.alive (player s)) (Player.inventory (player s))).

Definition set_alive (s : DungeonState.t) (v : bool) : DungeonState.t :=
  set_player s (Player.mk (Player.position (player s)) v (Player.inventory (player s))).

Definition set_inventory (s : DungeonState.t) (v : Inventory.t) : DungeonState.t :=
  set_player s (Player.mk (Player.position (player s)) (Player.alive (player s)) v).

Definition inv (s : DungeonState.t) : Inventory.t := Player.inventory (player s).

Definition set_inv_daggers (s : DungeonState.t) (v : Z) : DungeonState.t :=
  set_inventory s (Inventory.mk v (Inventory.coins (inv s)) (Inventory.keys (inv s))).

Definition set_inv_coins (s : DungeonState.t) (v : Z) : DungeonState.t :=
  set_inventory s (Inventory.mk (Inventory.daggers (inv s)) v (Inventory.keys (inv s))).

Definition set_inv_keys (s : DungeonState.t) (v : Z) : DungeonState.t :=
  set_inventory s (Inventory.mk (Inventory.daggers (inv s)) (Inventory.coins (inv s)) v).
End Update.

(** ** DungeonGame *)

Module DungeonGame.
Import DungeonState Update.

Record t : Type := mk {
  layout : DungeonLayout.t;
  initial_state : DungeonState.t
}.

Definition get_initial_state (self : t) : DungeonState.t := initial_state self.

Definition agent_count (self : t) : Z :=
  1 + Z.of_nat (length (monsters (initial_state self))).

(** The test is made against the layout of the game, [self.layout]. *)
Definition win (self : t) (state : DungeonState.t) : bool :=
  bool_decide (Inventory.keys (inv state) ≠ 0)
  && bool_decide (Player.position (player state) = DungeonLayout.exit (layout self)).

(** [None] when the call raises, which it does only when [score] does. *)
Definition is_terminal `{HostFloat} (self : t) (state : DungeonState.t)
  : option (bool * option (list float)) :=
  let INFINITY := float_1e8 in
  if win self state then
    total ← score state;
    let value := fadd INFINITY total in
    Some (true, Some (value :: ((λ _, fneg value) <$> monsters state)))
  else if negb (Player.alive (player state)) then
    Some (true, Some (fneg INFINITY :: ((λ _, INFINITY) <$> monsters state)))
  else Some (false, None).

Definition get_turn (state : DungeonState.t) : Z := turn state.

(** The positions of the alive monsters other than the one at [index]
    ([index] is compared with the positions [enumerate] counts from 0). *)
Definition monster_locations (ms : list Monster.t) (index : Z) : gset Point :=
  list_to_set
    ((λ im, Monster.position im.2)
       <$> filter (λ im, im.1 ≠ index ∧ Monster.alive im.2 = true) (enumerate ms)).

Definition get_actions (state : DungeonState.t) : option (list Direction) :=
  if bool_decide (turn state = 0) then
    let player_position := Player.position (player state) in
    Some (filter
            (λ direction,
               point_add player_position (to_vector direction)
                 ∈ DungeonLayout.walkable (DungeonState.layout state))
            Direction_members)
  else
    let index := turn state - 1 in
    monster ← py_getitem (monsters state) index;
    if negb (Monster.alive monster) then Some []
    else
      let locations := monster_locations (monsters state) index in
      let monster_position := Monster.position monster in
      Some (filter
              (λ direction,
                 point_add monster_position (to_vector direction)
                   ∈ DungeonLayout.walkable (DungeonState.layout state)
                 ∧ point_add monster_position (to_vector direction) ∉ locations)
              Direction_members).

(** [monster.position == new_position and monster.alive] *)
Definition at_player (new_position : Point) (m : Monster.t) : Prop :=
  Monster.position m = new_position ∧ Monster.alive m = true.

#[global] Instance at_player_dec p m : Decision (at_player p m).
Proof. unfold at_player. apply _. Defined.

(** The player's branch of [get_successor], one [if] of the source after
    the other: the three pickups on the cell stepped on, then the fight. *)
Definition take_coin (new_position : Point) (state : DungeonState.t) : DungeonState.t :=
  if bool_decide (new_position ∈ coins state) then
    let state := set_coins state (coins state ∖ {[new_position]}) in
    set_inv_coins state (Inventory.coins (inv state) + 1)
  else state.

Definition take_dagger (new_position : Point) (state : DungeonState.t) : DungeonState.t :=
  if bool_decide (new_position ∈ daggers state) then
    let state := set_daggers state (daggers state ∖ {[new_position]}) in
    set_inv_daggers state (Inventory.daggers (inv state) + 1)
  else state.

Definition take_key (new_position : Point) (state : DungeonState.t) : DungeonState.t :=
  if bool_decide (new_position ∈ keys state) then
    let state := set_keys state (keys state ∖ {[new_position]}) in
    set_inv_keys state (Inventory.keys (inv state) + 1)
  else state.

Definition fight (new_position : Point) (state : DungeonState.t) : DungeonState.t :=
  let monsters_at_player := filter (at_player new_position) (monsters state) in
  match monsters_at_player with
  | [] => state
  | _ :: _ =>
      if bool_decide (Inventory.daggers (inv state) < Z.of_nat (length monsters_at_player))
      then
        let state := set_inv_daggers state 0 in
        set_alive state false
      else
        let state :=
          set_inv_daggers state
            (Inventory.daggers (inv state) - Z.of_nat (length monsters_at_player)) in
        (* the monsters of [monsters_at_player] are the very objects of
           [state.monsters]: the loop clears their flags in place *)
        set_monsters state
          ((λ m, if decide (at_player new_position m)
                 then Monster.mk (Monster.position m) false else m)
             <$> monsters state)
  end.

Definition player_action (state : DungeonState.t) (action : Direction) : DungeonState.t :=
  let new_position := point_add (Player.position (player state)) (to_vector action) in
  let state := set_position state new_position in
  let state := take_coin new_position state in
  let state := take_dagger new_position state in
  let state := take_key new_position state in
  fight new_position state.

(** The monster's branch of [get_successor], up to the turn's advance;
    [None] when [state.monsters[current_turn - 1]] raises. *)
Definition monster_action (state : DungeonState.t) (action : Direction)
  : option DungeonState.t :=
  let current_turn := turn state in
  j ← py_index (length (monsters state)) (current_turn - 1);
  monster ← monsters state !! j;
  let new_position := point_add (Monster.position monster) (to_vector action) in
  let monster := Monster.mk new_position (Monster.alive monster) in
  if bool_decide (new_position = Player.position (player state)) then
    if bool_decide (Inventory.daggers (inv state) ≠ 0) then
      let monster := Monster.mk (Monster.position monster) false in
      let state := set_monsters state (<[j := monster]> (monsters state)) in
      Some (set_inv_daggers state (Inventory.daggers (inv state) - 1))
    else
      let state := set_monsters state (<[j := monster]> (monsters state)) in
      Some (set_alive state false)
  else Some (set_monsters state (<[j := monster]> (monsters state))).

(** The end of [get_successor]: the turn advances, and the clock with it
    when the turn is back at the player. *)
Definition advance_turn (state : DungeonState.t) : option DungeonState.t :=
  new_turn ← next_turn state;
  let state := set_turn state new_turn in
  if bool_decide (turn state = 0) then Some (set_time state (time state + 1))
  else Some state.

Definition get_successor (state : DungeonState.t) (action : Direction)
  : option DungeonState.t :=
  let current_turn := turn state in
  state ← (if bool_decide (current_turn = 0) then Some (player_action state action)
           else monster_action state action);
  advance_turn state.
(** What the two loops of [from_text] have gathered. *)
Record scanned : Type := mk_scanned {
  scan_walkable : gset Point;
  scan_coins : gset Point;
  scan_keys : gset Point;
  scan_daggers : gset Point;
  scan_monsters : list Monster.t;
  scan_player : option Point;
  scan_exit : option Point
}.

(** The body of the inner loop, for the character [char] at [(x, y)]. *)
Definition scan_cell (st : scanned) (position : Point) (char : ascii) : scanned :=
  if bool_decide (char ≠ DungeonTile.value DungeonTile.WALL) then
    let st :=
      mk_scanned ({[position]} ∪ scan_walkable st) (scan_coins st) (scan_keys st)
        (scan_daggers st) (scan_monsters st) (scan_player st) (scan_exit st) in
    if bool_decide (char = DungeonTile.value DungeonTile.PLAYER) then
      mk_scanned (scan_walkable st) (scan_coins st) (scan_keys st)
        (scan_daggers st) (scan_monsters st) (Some position) (scan_exit st)
    else if bool_decide (char = DungeonTile.value DungeonTile.COIN) then
      mk_scanned (scan_walkable st) ({[position]} ∪ scan_coins st) (scan_keys st)
        (scan_daggers st) (scan_monsters st) (scan_player st) (scan_exit st)
    else if bool_decide (char = DungeonTile.value DungeonTile.KEY) then
      mk_scanned (scan_walkable st) (scan_coins st) ({[position]} ∪ scan_keys st)
        (scan_daggers st) (scan_monsters st) (scan_player st) (scan_exit st)
    else if bool_decide (char = DungeonTile.value DungeonTile.MONSTER) then
      mk_scanned (scan_walkable st) (scan_coins st) (scan_keys st)
        (scan_daggers st) (scan_monsters st ++ [Monster.mk position true])
        (scan_player st) (scan_exit st)
    else if bool_decide (char = DungeonTile.value DungeonTile.DAGGER) then
      mk_scanned (scan_walkable st) (scan_coins st) (scan_keys st)
        ({[position]} ∪ scan_daggers st) (scan_monsters st) (scan_player st) (scan_exit st)
    else if bool_decide (char = DungeonTile.value DungeonTile.EXIT) then
      mk_scanned (scan_walkable st) (scan_coins st) (scan_keys st)
        (scan_daggers st) (scan_monsters st) (scan_player st) (Some position)
    else st
  else st.

(** [for x, char in enumerate(line)] *)
Definition scan_line (st : scanned) (y : Z) (line : list ascii) : scanned :=
  fold_left (λ st xc, scan_cell st (xc.1, y) xc.2) (enumerate line) st.

(** [for y, line in enumerate(lines)] *)
Definition scan_lines (lines : list (list ascii)) : scanned :=
  fold_left (λ st yl, scan_line st yl.1 yl.2) (enumerate lines)
    (mk_scanned ∅ ∅ ∅ ∅ [] None None).

(** The non-empty stripped lines of the text. *)
Definition text_lines (text : string) : list (list ascii) :=
  filter (λ line, line ≠ []) (py_strip <$> py_splitlines (String.list_ascii_of_string text)).

(** What [from_text] comes to.  [max] raises on a text without a non-blank
    line.  On a text without a player tile or without an exit tile the
    source returns a game whose player position or exit is [None], which
    the data classes have no type for: [Incomplete] keeps what was found. *)
Inductive parsed : Type :=
  | Raised_ValueError
  | Incomplete (found_player found_exit : option Point)
  | Parsed (problem : t).

Definition from_text (text : string) : parsed :=
  let lines := text_lines text in
  match py_max ((λ line, Z.of_nat (length line)) <$> lines) with
  | None => Raised_ValueError
  | Some width =>
      let height := Z.of_nat (length lines) in
      let st := scan_lines lines in
      match scan_player st, scan_exit st with
      | Some player, Some exit =>
          let layout := DungeonLayout.mk width height (scan_walkable st) exit in
          let player := Player.mk player true (Inventory.mk 0 0 0) in
          Parsed
            (mk layout
               (DungeonState.mk 0 0 layout player (scan_coins st) (scan_daggers st)
                  (scan_keys st) (scan_monsters st)))
      | found_player, found_exit => Incomplete found_player found_exit
      end
  end.
End DungeonGame.

(** ** MonsterAgent *)

(** Modelled from the spec: [helpers.mt19937.RandomGenerator] is not part of
    the sources at hand.  It is a random source with an integer draw in a
    closed range, [rng.int(l, h)], and a float draw in [[0, 1)],
    [rng.float()]; each draw advances the generator. *)
Class RandomGenerator `{HostFloat} : Type := {
  generator : Type;
  rng_int : generator → Z → Z → Z * generator;
  rng_float : generator → float * generator
}.

Module MonsterAgent.
Import DungeonState.

Section Agent.
Context `{RandomGenerator}.

Record t : Type := mk {
  rng : generator;
  current_direction : Direction;
  steps : Z
}.

(** [__init__], from an already seeded generator *)
Definition init (g : generator) : t := mk g NONE 0.

(** [None] when the drawn index is outside [movement_actions]. *)
Definition __select_new_action (self : t) (actions : list Direction) : option t :=
  let movement_actions := filter (λ action, action ≠ NONE) actions in
  let self := mk (rng self) (current_direction self) 0 in
  match movement_actions with
  | _ :: _ =>
      let '(i, g) := rng_int (rng self) 0 (Z.of_nat (length movement_actions) - 1) in
      direction ← py_getitem movement_actions i;
      Some (mk g direction (steps self))
  | [] => Some (mk (rng self) NONE (steps self))
  end.

(** The third operand of the [or]: a float is drawn, then compared with
    [2**(-self.steps / min(width, height))].  The division raises on 0 and
    when the quotient is too large for a float, the power when it
    overflows. *)
Definition tired (self : t) (state : DungeonState.t) : option (bool * t) :=
  let '(x, g) := rng_float (rng self) in
  let self := mk g (current_direction self) (steps self) in
  let m := Z.min (DungeonLayout.width (layout state)) (DungeonLayout.height (layout state)) in
  if bool_decide (m = 0) then None
  else
    quotient ← int_truediv (- steps self) m;
    threshold ← int_pow_float 2 quotient;
    Some (fgt x threshold, self).

(** [act] returns the chosen direction; the agent it leaves behind comes
    with it.  [None] when the call raises. *)
Definition act (self : t) (state : DungeonState.t) : option (Direction * t) :=
  actions ← DungeonGame.get_actions state;
  self ←
    (if bool_decide (current_direction self = NONE) then __select_new_action self actions
     else if bool_decide (current_direction self ∉ actions) then __select_new_action self actions
     else
       drawn ← tired self state;
       let '(too_long, self) := (drawn : bool * t) in
       if too_long then __select_new_action self actions else Some self);
  let self := mk (rng self) (current_direction self) (steps self + 1) in
  Some (current_direction self, self).
End Agent.
End MonsterAgent.

(** ** Notions used in the statements *)

Module Notions.
Import DungeonState Update.

(** Whether slot [i] of the monster list holds an alive monster. *)
Definition is_alive_at (ms : list Monster.t) (i : nat) : bool :=
  match ms !! i with
  | Some m => Monster.alive m
  | None => false
  end.

(** The indices of the alive monsters from slot [i] on, in increasing order. *)
Definition alive_from (ms : list Monster.t) (i : nat) : list nat :=
  filter (λ j, is_alive_at ms j = true) (seq i (length ms - i)).

(** Iterating [turn := next_turn]: the turn values met before the turn is
    back at 0, provided that happens within [n] calls. *)
Fixpoint turns_until_player (n : nat) (s : DungeonState.t) : option (list Z) :=
  match n with
  | O => None
  | S n' =>
      t ← next_turn s;
      if bool_decide (t = 0) then Some []
      else (t ::.) <$> turns_until_player n' (set_turn s t)
  end.
(** The state a monster's move leaves, before the turn advances: the monster
    of slot [j], which is [m], steps by [a]; if it lands on the player, it
    dies for one dagger when the player holds daggers, and kills the player
    otherwise. *)
Definition monster_moved (s : DungeonState.t) (a : Direction) (j : nat) (m : Monster.t)
  : DungeonState.t :=
  let new_position := point_add (Monster.position m) (to_vector a) in
  let meets := bool_decide (new_position = Player.position (player s)) in
  let armed := bool_decide (Inventory.daggers (inv s) ≠ 0) in
  DungeonState.mk (time s) (turn s) (layout s)
    (Player.mk (Player.position (player s))
       (if meets && negb armed then false else Player.alive (player s))
       (Inventory.mk
          (if meets && armed then Inventory.daggers (inv s) - 1
           else Inventory.daggers (inv s))
          (Inventory.coins (inv s)) (Inventory.keys (inv s))))
    (coins s) (daggers s) (keys s)
    (<[j := Monster.mk new_position
              (if meets && armed then false else Monster.alive m)]> (monsters s)).
(** The cell the player steps on. *)
Definition new_position (s : DungeonState.t) (a : Direction) : Point :=
  point_add (Player.position (player s)) (to_vector a).

(** The player's dagger count once the dagger of that cell, if any, is
    picked up: the count the fight is resolved with. *)
Definition daggers_after_pickup (s : DungeonState.t) (a : Direction) : Z :=
  Inventory.daggers (inv s)
  + (if bool_decide (new_position s a ∈ daggers s) then 1 else 0).

(** The alive monsters on the cell the player steps on. *)
Definition monsters_met (s : DungeonState.t) (a : Direction) : list Monster.t :=
  filter (DungeonGame.at_player (new_position s a)) (monsters s).
(** The turn is the player's, or that of an alive monster. *)
Definition turn_holder_alive (s : DungeonState.t) : Prop :=
  turn s = 0 ∨ ∃ i : nat, turn s = Z.of_nat i + 1 ∧ is_alive_at (monsters s) i = true.

(** The invariants of the data model. *)
Record well_formed (s : DungeonState.t) : Prop := {
  wf_width : 0 < DungeonLayout.width (layout s);
  wf_height : 0 < DungeonLayout.height (layout s);
  wf_exit : DungeonLayout.exit (layout s) ∈ DungeonLayout.walkable (layout s);
  wf_time : 0 <= time s;
  wf_turn : turn_holder_alive s;
  wf_player : Player.position (player s) ∈ DungeonLayout.walkable (layout s);
  wf_monsters :
    ∀ (i : nat) (m : Monster.t),
      monsters s !! i = Some m → Monster.alive m = true →
      Monster.position m ∈ DungeonLayout.walkable (layout s);
  wf_coins : coins s ⊆ DungeonLayout.walkable (layout s);
  wf_daggers : daggers s ⊆ DungeonLayout.walkable (layout s);
  wf_keys : keys s ⊆ DungeonLayout.walkable (layout s);
  wf_coins_daggers : coins s ## daggers s;
  wf_coins_keys : coins s ## keys s;
  wf_daggers_keys : daggers s ## keys s;
  wf_inv_daggers : 0 <= Inventory.daggers (inv s);
  wf_inv_coins : 0 <= Inventory.coins (inv s);
  wf_inv_keys : 0 <= Inventory.keys (inv s)
}.
(** What a resample of the monster agent leaves behind, from the generator
    [g] it starts with: the direction at the drawn index of the movement
    actions, or [NONE] without any draw when there is none; the step counter,
    reset to 0 by the resample, is 1 once [act] has counted the step. *)
Definition resampled `{RandomGenerator}
    (g : generator) (actions : list Direction) (self' : MonsterAgent.t) : Prop :=
  let movement_actions := filter (λ action, action ≠ NONE) actions in
  MonsterAgent.steps self' = 1
  ∧ (movement_actions = [] →
     MonsterAgent.current_direction self' = NONE ∧ MonsterAgent.rng self' = g)
  ∧ (movement_actions ≠ [] →
     ∃ i : Z,
       rng_int g 0 (Z.of_nat (length movement_actions) - 1) = (i, MonsterAgent.rng self')
       ∧ movement_actions !! Z.to_nat i = Some (MonsterAgent.current_direction self')
       ∧ MonsterAgent.current_direction self' ∈ movement_actions).

(** The contract of the integer draw: [rng.int(l, h)] lies in [[l, h]]. *)
Definition int_draws_in_range `{RandomGenerator} : Prop :=
  ∀ (g : generator) (l h : Z), l <= h → l <= (rng_int g l h).1 <= h.
(** The states a game can come to: from its initial state, by successors. *)
Inductive reachable (g : DungeonGame.t) : DungeonState.t → Prop :=
  | reachable_initial : reachable g (DungeonGame.get_initial_state g)
  | reachable_successor (s s' : DungeonState.t) (a : Direction) :
      reachable g s → DungeonGame.get_successor s a = Some s' → reachable g s'.

(** The cells of a map, row by row, each with its character. *)
Definition cells (lines : list (list ascii)) : list (Point * ascii) :=
  mjoin (imap (λ y line, imap (λ x c, ((Z.of_nat x, Z.of_nat y), c)) line) lines).

(** The character of the map at a position, if the position is on the map. *)
Definition char_at (lines : list (list ascii)) (p : Point) : option ascii :=
  if bool_decide (0 <= p.1 ∧ 0 <= p.2) then
    line ← lines !! Z.to_nat p.2; line !! Z.to_nat p.1
  else None.

(** [scan_cell] along a list of cells. *)
Definition scan_cells (st : DungeonGame.scanned) (cs : list (Point * ascii))
  : DungeonGame.scanned :=
  fold_left (λ st pc, DungeonGame.scan_cell st pc.1 pc.2) cs st.
(** A map that [__str__] can draw back: every line as long as the first,
    every character a tile, one [@] at most and one [E] at most. *)
Record drawable (lines : list (list ascii)) : Prop := {
  drawable_rectangular :
    ∀ line line' : list ascii, line ∈ lines → line' ∈ lines → length line = length line';
  drawable_tiles :
    ∀ (p : Point) (c : ascii),
      char_at lines p = Some c → ∃ tile : DungeonTile.t, c = DungeonTile.value tile;
  drawable_one_player :
    ∀ p q : Point,
      char_at lines p = Some "@"%char → char_at lines q = Some "@"%char → p = q;
  drawable_one_exit :
    ∀ p q : Point,
      char_at lines p = Some "E"%char → char_at lines q = Some "E"%char → p = q
}.
(** [score] in binary64 arithmetic. *)
Definition score64 (s : DungeonState.t) : option PrimFloat.float :=
  @score Binary64.arithmetic s.




End Notions.

(** ** Small levels, to run the definitions on *)

Module Examples.
Import DungeonState Update.

(** The level [@.E]: a corridor of three cells, the exit at its right end. *)
Definition corridor : DungeonLayout.t :=
  DungeonLayout.mk 3 1 {[ (0, 0); (1, 0); (2, 0) ]} (2, 0).

(** The player at the left end of the corridor, at the start of a game. *)
Definition start : DungeonState.t :=
  DungeonState.mk 0 0 corridor (Player.mk (0, 0) true (Inventory.mk 0 0 0)) ∅ ∅ ∅ [].

(** A monster at the right end, the player in the middle; it is the
    monster's turn. *)
Definition monster_to_move (held : Z) : DungeonState.t :=
  DungeonState.mk 4 1 corridor (Player.mk (1, 0) true (Inventory.mk held 2 0))
    {[ (0, 0) ]} ∅ ∅ [Monster.mk (2, 0) true; Monster.mk (0, 0) false].

(** Two monsters share the middle cell, where a dagger lies; the player is
    at the left end and holds [held] daggers; it is the player's turn. *)
Definition ambush (held : Z) : DungeonState.t :=
  DungeonState.mk 7 0 corridor (Player.mk (0, 0) true (Inventory.mk held 0 0))
    ∅ {[ (1, 0) ]} {[ (2, 0) ]}
    [Monster.mk (1, 0) true; Monster.mk (2, 0) false; Monster.mk (1, 0) true].
(** A monster at the right end, an armed player at the left end, a coin in
    between; it is the player's turn. *)
Definition standoff : DungeonState.t :=
  DungeonState.mk 2 0 corridor (Player.mk (0, 0) true (Inventory.mk 1 0 0))
    {[ (1, 0) ]} ∅ ∅ [Monster.mk (2, 0) true].
(** Floats as terms that are not evaluated: every operation builds the term
    that names its result and none raises; the comparison is left to [gt]. *)
Inductive term : Type :=
  | Of_int (z : Z)
  | Lit_0_1
  | Lit_1e8
  | Add (x y : term)
  | Sub (x y : term)
  | Mul (x y : term)
  | Neg (x : term)
  | Truediv (a b : Z)
  | Pow (b : Z) (x : term)
  | Draw (n : nat).

Definition symbolic (gt : term → term → bool) : HostFloat :=
  {| float := term;
     float_of_int := λ z, Some (Of_int z);
     float_0_1 := Lit_0_1;
     float_1e8 := Lit_1e8;
     fadd := Add;
     fsub := Sub;
     fmul := Mul;
     fneg := Neg;
     int_truediv := λ a b, Some (Truediv a b);
     int_pow_float := λ b x, Some (Pow b x);
     fgt := gt |}.

(** A random source that counts its draws: the [n]-th integer draw from
    [[l, h]] is [l + n mod (h - l + 1)], the [n]-th float draw is the term
    [Draw n]. *)
Definition counting (gt : term → term → bool) : @RandomGenerator (symbolic gt) :=
  {| generator := nat;
     rng_int := λ n l h, (l + Z.of_nat n `mod` (h - l + 1), S n);
     rng_float := λ n, (Draw n : @float (symbolic gt), S n) |}.

(** The player at the exit of the corridor, with a key or without. *)
Definition at_exit (held_keys : Z) (alive : bool) : DungeonState.t :=
  DungeonState.mk 5 0 corridor (Player.mk (2, 0) alive (Inventory.mk 0 3 held_keys))
    ∅ ∅ ∅ [Monster.mk (0, 0) true; Monster.mk (1, 0) false].

Definition corridor_game : DungeonGame.t := DungeonGame.mk corridor start.

(** A game that starts with the player on the exit, key in hand. *)
Definition exit_game : DungeonGame.t := DungeonGame.mk corridor (at_exit 1 true).


(** The payoff of the player in [at_exit 1 true]: [1e8 + (13 - 0.1 * 5)]. *)
Definition win_payoff : PrimFloat.float :=
  Eval cbv in PrimFloat.add Binary64.Literal.hundred_million
                (FloatOps.SF2Prim (SpecFloat.S754_finite false 25 (-1))).
End Examples.

(** * Properties *)

Import DungeonState Update DungeonGame Notions.

(** ** Indexing *)

Lemma py_index_nat (n i : nat) :
  py_index n (Z.of_nat i) = if bool_decide (i < n)%nat then Some i else None.
Proof.
  unfold py_index.
  repeat case_bool_decide; try lia; [by rewrite Nat2Z.id|done].
Qed.

Lemma py_getitem_nat {A : Type} (l : list A) (i : nat) :
  py_getitem l (Z.of_nat i) = l !! i.
Proof.
  unfold py_getitem. rewrite py_index_nat.
  case_bool_decide; simpl; [done|].
  symmetry. apply lookup_ge_None. lia.
Qed.

(** ** Turn sequencing *)

(** The loop of [next_turn], one round at a time. *)
Lemma next_turn_from_unfold (ms : list Monster.t) (t : Z) :
  next_turn_from ms t =
    if bool_decide (t < Z.of_nat (length ms)) then
      m ← py_getitem ms t;
      if Monster.alive m then Some (t + 1) else next_turn_from ms (t + 1)
    else Some 0.
Proof.
  unfold next_turn_from. case_bool_decide as Hlt.
  - replace (Z.to_nat (Z.of_nat (length ms) - t))
      with (S (Z.to_nat (Z.of_nat (length ms) - (t + 1)))) by lia.
    done.
  - replace (Z.to_nat (Z.of_nat (length ms) - t)) with O by lia. done.
Qed.

Lemma next_turn_from_nat (ms : list Monster.t) (i : nat) :
  next_turn_from ms (Z.of_nat i) =
    if bool_decide (i < length ms)%nat then
      if is_alive_at ms i then Some (Z.of_nat i + 1)
      else next_turn_from ms (Z.of_nat (S i))
    else Some 0.
Proof.
  rewrite next_turn_from_unfold, py_getitem_nat. unfold is_alive_at.
  repeat case_bool_decide; try lia; [|done].
  destruct (ms !! i) as [m|] eqn:Hm; simpl.
  - replace (Z.of_nat i + 1) with (Z.of_nat (S i)) by lia.
    destruct (Monster.alive m); [f_equal; lia|done].
  - apply lookup_ge_None in Hm. lia.
Qed.

Lemma alive_from_ge (ms : list Monster.t) (i : nat) :
  (length ms ≤ i)%nat → alive_from ms i = [].
Proof. intros Hi. unfold alive_from. by replace (length ms - i)%nat with O by lia. Qed.

Lemma alive_from_lt (ms : list Monster.t) (i : nat) :
  (i < length ms)%nat →
  alive_from ms i =
    if is_alive_at ms i then i :: alive_from ms (S i) else alive_from ms (S i).
Proof.
  intros Hi. unfold alive_from.
  replace (length ms - i)%nat with (S (length ms - S i)) by lia.
  simpl seq. rewrite filter_cons.
  destruct (is_alive_at ms i); by case_decide.
Qed.

(** What one call of [next_turn] from slot [i] finds: either no alive monster
    is left, or the first alive slot [j] from [i] on. *)
Lemma next_turn_from_scan (ms : list Monster.t) (k i : nat) :
  (length ms - i)%nat = k →
  (next_turn_from ms (Z.of_nat i) = Some 0 ∧ alive_from ms i = [])
  ∨ (∃ j : nat,
        next_turn_from ms (Z.of_nat i) = Some (Z.of_nat j + 1)
        ∧ (i ≤ j < length ms)%nat
        ∧ is_alive_at ms j = true
        ∧ (∀ j' : nat, (i ≤ j' < j)%nat → is_alive_at ms j' = false)
        ∧ alive_from ms i = j :: alive_from ms (S j)).
Proof.
  revert i. induction k as [|k IH]; intros i Hk.
  - left. rewrite next_turn_from_nat, alive_from_ge by lia.
    case_bool_decide; [lia|done].
  - rewrite next_turn_from_nat, alive_from_lt by lia.
    case_bool_decide; [|lia].
    destruct (is_alive_at ms i) eqn:Hi.
    + right. exists i. repeat split; try done; try lia; intros; lia.
    + destruct (IH (S i)) as [[Hn Ha]|(j & Hn & Hj & Haj & Hdead & Ha)]; [lia| |].
      * left. done.
      * right. exists j. repeat split; try done; try lia.
        intros j' Hj'. destruct (decide (j' = i)) as [->|]; [done|].
        apply Hdead. lia.
Qed.

Lemma is_alive_at_lt (ms : list Monster.t) (j : nat) :
  is_alive_at ms j = true → (j < length ms)%nat.
Proof.
  unfold is_alive_at. destruct (ms !! j) eqn:Hj; [|done].
  intros _. by eapply lookup_lt_Some.
Qed.

Lemma elem_of_alive_from (ms : list Monster.t) (i j : nat) :
  j ∈ alive_from ms i ↔ (i ≤ j)%nat ∧ is_alive_at ms j = true.
Proof.
  unfold alive_from. rewrite list_elem_of_filter, elem_of_seq. split.
  - intros [? ?]. split; [lia|done].
  - intros [? Hj]. split; [done|]. apply is_alive_at_lt in Hj. lia.
Qed.

Lemma alive_turns_sorted (ms : list Monster.t) (k i : nat) :
  (length ms - i)%nat = k →
  StronglySorted Z.lt ((λ j, Z.of_nat j + 1) <$> alive_from ms i).
Proof.
  revert i. induction k as [|k IH]; intros i Hk.
  - rewrite alive_from_ge by lia. constructor.
  - rewrite alive_from_lt by lia.
    destruct (is_alive_at ms i); [|apply IH; lia].
    rewrite fmap_cons. constructor; [apply IH; lia|].
    apply Forall_forall. intros t [j [-> Hj]]%list_elem_of_fmap.
    apply elem_of_alive_from in Hj. lia.
Qed.

(** Iterating [next_turn] from slot [i] meets the alive slots from [i] on,
    one after the other, and then comes back to 0. *)
Lemma turns_until_player_from (s : DungeonState.t) (n i : nat) :
  (length (monsters s) - i < n)%nat →
  turns_until_player n (set_turn s (Z.of_nat i))
  = Some ((λ j, Z.of_nat j + 1) <$> alive_from (monsters s) i).
Proof.
  revert i. induction n as [|n IH]; intros i Hn; [lia|].
  change (turns_until_player (S n) (set_turn s (Z.of_nat i)))
    with (t ← next_turn_from (monsters s) (Z.of_nat i);
          if bool_decide (t = 0) then Some []
          else (t ::.) <$> turns_until_player n (set_turn s t)).
  destruct (next_turn_from_scan (monsters s) _ i eq_refl)
    as [[-> ->]|(j & -> & Hj & _ & _ & ->)]; simpl.
  - done.
  - case_bool_decide; [lia|].
    replace (Z.of_nat j + 1) with (Z.of_nat (S j)) by lia.
    rewrite IH by lia. done.
Qed.

(** A whole round of turns, from the player back to the player. *)
Lemma turns_until_player_cycle (s : DungeonState.t) (n : nat) :
  (length (monsters s) < n)%nat →
  ∃ visited : list Z,
    turns_until_player n (set_turn s 0) = Some visited
    ∧ StronglySorted Z.lt visited
    ∧ ∀ i : nat, Z.of_nat i + 1 ∈ visited ↔ is_alive_at (monsters s) i = true.
Proof.
  intros Hlen. eexists. split; [|split].
  - apply (turns_until_player_from s n 0). lia.
  - by eapply alive_turns_sorted.
  - intros i. rewrite list_elem_of_fmap. setoid_rewrite elem_of_alive_from.
    split; [intros (i' & ? & _ & ?); by replace i with i' by lia|].
    intros ?. exists i. split; [done|]. split; [lia|done].
Qed.

(** C5.  In a state whose turn is not negative, [next_turn] returns [i + 1]
    for the smallest slot [i], at or after the current turn value, that holds
    an alive monster, and 0 when there is no such slot.  Hence, whatever
    monsters are dead, iterating [turn := next_turn] from turn 0 comes back
    to 0 after having met the turn of every alive monster exactly once, in
    increasing order. *)
Theorem next_turn_visits_alive_in_order (s : DungeonState.t) :
  0 <= turn s →
  (∀ i : nat,
      turn s <= Z.of_nat i →
      is_alive_at (monsters s) i = true →
      (∀ j : nat, turn s <= Z.of_nat j → (j < i)%nat → is_alive_at (monsters s) j = false) →
      next_turn s = Some (Z.of_nat i + 1))
  ∧ ((∀ i : nat, turn s <= Z.of_nat i → is_alive_at (monsters s) i = false) →
     next_turn s = Some 0)
  ∧ (∀ n : nat,
        (length (monsters s) < n)%nat →
        ∃ visited : list Z,
          turns_until_player n (set_turn s 0) = Some visited
          ∧ StronglySorted Z.lt visited
          ∧ ∀ i : nat, Z.of_nat i + 1 ∈ visited ↔ is_alive_at (monsters s) i = true).
Proof.
  intros Hturn. unfold next_turn.
  destruct (next_turn_from_scan (monsters s) _ (Z.to_nat (turn s)) eq_refl)
    as [[Hn Hnone]|(j & Hn & Hj & Haj & Hdead & _)];
    rewrite Z2Nat.id in Hn by done; rewrite Hn.
  - split; [|split].
    + intros i Hi Hai _.
      assert (i ∈ alive_from (monsters s) (Z.to_nat (turn s))) as Hin
        by (apply elem_of_alive_from; split; [lia|done]).
      rewrite Hnone in Hin. by apply not_elem_of_nil in Hin.
    + done.
    + apply turns_until_player_cycle.
  - split; [|split].
    + intros i Hi Hai Hmin.
      destruct (decide (i < j)%nat); [rewrite Hdead in Hai by lia; done|].
      destruct (decide (j < i)%nat); [rewrite Hmin in Haj by lia; done|].
      by replace i with j by lia.
    + intros Hall. rewrite Hall in Haj by lia. done.
    + apply turns_until_player_cycle.
Qed.

(** ** The successor, step by step *)

Lemma next_turn_is_Some (s : DungeonState.t) :
  0 <= turn s → is_Some (next_turn s).
Proof.
  intros Hturn. unfold next_turn.
  destruct (next_turn_from_scan (monsters s) _ (Z.to_nat (turn s)) eq_refl)
    as [[Hn _]|(j & Hn & _)]; rewrite Z2Nat.id in Hn by done; by rewrite Hn.
Qed.

(** What the turn's advance leaves alone, and what it does to the clock. *)
Lemma advance_turn_inv (mid s' : DungeonState.t) :
  advance_turn mid = Some s' →
  next_turn mid = Some (turn s')
  ∧ time s' = (if bool_decide (turn s' = 0) then time mid + 1 else time mid)
  ∧ DungeonState.layout s' = DungeonState.layout mid
  ∧ player s' = player mid
  ∧ coins s' = coins mid
  ∧ daggers s' = daggers mid
  ∧ keys s' = keys mid
  ∧ monsters s' = monsters mid.
Proof.
  unfold advance_turn. destruct (next_turn mid) as [t|]; [|done]. simpl.
  case_bool_decide as Ht; intros [= <-]; simpl; case_bool_decide; done.
Qed.

Lemma advance_turn_is_Some (mid : DungeonState.t) :
  0 <= turn mid → is_Some (advance_turn mid).
Proof.
  intros [t Ht]%next_turn_is_Some. unfold advance_turn. rewrite Ht. simpl.
  by case_bool_decide.
Qed.

Lemma get_successor_inv (s s' : DungeonState.t) (a : Direction) :
  get_successor s a = Some s' →
  ∃ mid : DungeonState.t,
    (if bool_decide (turn s = 0) then Some (player_action s a) else monster_action s a)
    = Some mid
    ∧ advance_turn mid = Some s'.
Proof.
  unfold get_successor.
  destruct (if bool_decide (turn s = 0) then _ else _) as [mid|]; [|done].
  simpl. eauto.
Qed.

(** What each step of the player's move leaves alone. *)
Lemma take_coin_frame (p : Point) (s : DungeonState.t) :
  time (take_coin p s) = time s
  ∧ turn (take_coin p s) = turn s
  ∧ DungeonState.layout (take_coin p s) = DungeonState.layout s
  ∧ Player.position (player (take_coin p s)) = Player.position (player s)
  ∧ Player.alive (player (take_coin p s)) = Player.alive (player s)
  ∧ Inventory.daggers (inv (take_coin p s)) = Inventory.daggers (inv s)
  ∧ Inventory.keys (inv (take_coin p s)) = Inventory.keys (inv s)
  ∧ daggers (take_coin p s) = daggers s
  ∧ keys (take_coin p s) = keys s
  ∧ monsters (take_coin p s) = monsters s.
Proof. unfold take_coin. by case_bool_decide. Qed.

Lemma take_dagger_frame (p : Point) (s : DungeonState.t) :
  time (take_dagger p s) = time s
  ∧ turn (take_dagger p s) = turn s
  ∧ DungeonState.layout (take_dagger p s) = DungeonState.layout s
  ∧ Player.position (player (take_dagger p s)) = Player.position (player s)
  ∧ Player.alive (player (take_dagger p s)) = Player.alive (player s)
  ∧ Inventory.coins (inv (take_dagger p s)) = Inventory.coins (inv s)
  ∧ Inventory.keys (inv (take_dagger p s)) = Inventory.keys (inv s)
  ∧ coins (take_dagger p s) = coins s
  ∧ keys (take_dagger p s) = keys s
  ∧ monsters (take_dagger p s) = monsters s.
Proof. unfold take_dagger. by case_bool_decide. Qed.

Lemma take_key_frame (p : Point) (s : DungeonState.t) :
  time (take_key p s) = time s
  ∧ turn (take_key p s) = turn s
  ∧ DungeonState.layout (take_key p s) = DungeonState.layout s
  ∧ Player.position (player (take_key p s)) = Player.position (player s)
  ∧ Player.alive (player (take_key p s)) = Player.alive (player s)
  ∧ Inventory.daggers (inv (take_key p s)) = Inventory.daggers (inv s)
  ∧ Inventory.coins (inv (take_key p s)) = Inventory.coins (inv s)
  ∧ coins (take_key p s) = coins s
  ∧ daggers (take_key p s) = daggers s
  ∧ monsters (take_key p s) = monsters s.
Proof. unfold take_key. by case_bool_decide. Qed.

Lemma fight_frame (p : Point) (s : DungeonState.t) :
  time (fight p s) = time s
  ∧ turn (fight p s) = turn s
  ∧ DungeonState.layout (fight p s) = DungeonState.layout s
  ∧ Player.position (player (fight p s)) = Player.position (player s)
  ∧ Inventory.coins (inv (fight p s)) = Inventory.coins (inv s)
  ∧ Inventory.keys (inv (fight p s)) = Inventory.keys (inv s)
  ∧ coins (fight p s) = coins s
  ∧ daggers (fight p s) = daggers s
  ∧ keys (fight p s) = keys s.
Proof.
  unfold fight. destruct (filter _ _); [done|]. by case_bool_decide.
Qed.

(** The player's move touches neither the clock, the turn nor the layout. *)
Lemma player_action_frame (s : DungeonState.t) (a : Direction) :
  time (player_action s a) = time s
  ∧ turn (player_action s a) = turn s
  ∧ DungeonState.layout (player_action s a) = DungeonState.layout s.
Proof.
  unfold player_action.
  set (p := point_add _ _). set (s0 := set_position s p).
  destruct (fight_frame p (take_key p (take_dagger p (take_coin p s0))))
    as (-> & -> & -> & _).
  destruct (take_key_frame p (take_dagger p (take_coin p s0))) as (-> & -> & -> & _).
  destruct (take_dagger_frame p (take_coin p s0)) as (-> & -> & -> & _).
  destruct (take_coin_frame p s0) as (-> & -> & -> & _).
  done.
Qed.

(** The monster's move, once its slot is known. *)
Lemma monster_action_at (s : DungeonState.t) (a : Direction) (j : nat) (m : Monster.t) :
  py_index (length (monsters s)) (turn s - 1) = Some j →
  monsters s !! j = Some m →
  monster_action s a = Some (monster_moved s a j m).
Proof.
  intros Hj Hm. unfold monster_action, monster_moved. rewrite Hj. simpl.
  rewrite Hm. simpl.
  destruct s as [tm tn ly [pos al [dg cn ky]] cs ds ks ms]. simpl in *.
  unfold inv in *. simpl in *.
  repeat case_bool_decide; simpl in *; done.
Qed.

Lemma monster_action_inv (s mid : DungeonState.t) (a : Direction) :
  monster_action s a = Some mid →
  ∃ (j : nat) (m : Monster.t),
    py_index (length (monsters s)) (turn s - 1) = Some j
    ∧ monsters s !! j = Some m
    ∧ mid = monster_moved s a j m.
Proof.
  intros Hmid.
  destruct (py_index (length (monsters s)) (turn s - 1)) as [j|] eqn:Hj;
    [|by unfold monster_action in Hmid; rewrite Hj in Hmid].
  destruct (monsters s !! j) as [m|] eqn:Hm;
    [|by unfold monster_action in Hmid; rewrite Hj in Hmid; simpl in Hmid;
         rewrite Hm in Hmid].
  exists j, m. rewrite (monster_action_at s a j m) in Hmid by done.
  by injection Hmid as <-.
Qed.

Lemma get_successor_player (s : DungeonState.t) (a : Direction) :
  turn s = 0 → get_successor s a = advance_turn (player_action s a).
Proof. intros Ht. unfold get_successor. by rewrite bool_decide_eq_true_2. Qed.

Lemma get_successor_monster (s : DungeonState.t) (a : Direction) (j : nat) (m : Monster.t) :
  turn s = Z.of_nat j + 1 →
  monsters s !! j = Some m →
  get_successor s a = advance_turn (monster_moved s a j m).
Proof.
  intros Ht Hm. unfold get_successor.
  rewrite bool_decide_eq_false_2 by lia.
  rewrite (monster_action_at s a j m); [done| |done].
  replace (turn s - 1) with (Z.of_nat j) by lia.
  rewrite py_index_nat, bool_decide_eq_true_2; [done|].
  by eapply lookup_lt_Some.
Qed.

(** In a state of the data model, whose turn is 0 or names a slot of the
    monster list, [get_successor] returns a state. *)
Lemma get_successor_is_Some (s : DungeonState.t) (a : Direction) :
  0 <= turn s <= Z.of_nat (length (monsters s)) → is_Some (get_successor s a).
Proof.
  intros Ht. destruct (decide (turn s = 0)) as [H0|H0].
  - rewrite get_successor_player by done. apply advance_turn_is_Some.
    destruct (player_action_frame s a) as (_ & -> & _). lia.
  - destruct (lookup_lt_is_Some_2 (monsters s) (Z.to_nat (turn s - 1))) as [m Hm]; [lia|].
    rewrite (get_successor_monster s a (Z.to_nat (turn s - 1)) m) by (done || lia).
    apply advance_turn_is_Some. simpl. lia.
Qed.

(** C7.  In a state of the data model, [get_successor] returns a state whose
    time is the input's plus 1 when its turn is 0, and the input's time
    otherwise.  (No other operation of the engine returns a state.) *)
Theorem successor_time (s : DungeonState.t) (a : Direction) :
  0 <= turn s <= Z.of_nat (length (monsters s)) →
  ∃ s' : DungeonState.t,
    get_successor s a = Some s'
    ∧ time s' = (if bool_decide (turn s' = 0) then time s + 1 else time s).
Proof.
  intros Ht. destruct (get_successor_is_Some s a Ht) as [s' Hs'].
  exists s'. split; [done|].
  apply get_successor_inv in Hs' as (mid & Hmid & Hadv).
  apply advance_turn_inv in Hadv as (_ & -> & _).
  enough (time mid = time s) as -> by done.
  case_bool_decide.
  - injection Hmid as <-. apply player_action_frame.
  - apply monster_action_inv in Hmid as (j & m & _ & _ & ->). done.
Qed.

Lemma successor_time_witness :
  ∃ s' : DungeonState.t,
    get_successor (Examples.monster_to_move 0) LEFT = Some s'
    ∧ time s' = (if bool_decide (turn s' = 0) then 4 + 1 else 4).
Proof.
  apply (successor_time (Examples.monster_to_move 0) LEFT). simpl. lia.
Defined.

(** ** A monster's turn *)

(** The successor of a monster's turn is the moved state with the turn
    advanced. *)
Lemma get_successor_monster_Some (s : DungeonState.t) (a : Direction) (i : nat) (m : Monster.t) :
  turn s = Z.of_nat i + 1 →
  monsters s !! i = Some m →
  ∃ s' : DungeonState.t,
    get_successor s a = Some s'
    ∧ DungeonState.layout s' = DungeonState.layout s
    ∧ player s' = player (monster_moved s a i m)
    ∧ coins s' = coins s
    ∧ daggers s' = daggers s
    ∧ keys s' = keys s
    ∧ monsters s' = monsters (monster_moved s a i m).
Proof.
  intros Ht Hm. rewrite (get_successor_monster s a i m) by done.
  destruct (advance_turn_is_Some (monster_moved s a i m)) as [s' Hs']; [simpl; lia|].
  exists s'. split; [done|].
  apply advance_turn_inv in Hs' as (_ & _ & -> & -> & -> & -> & -> & ->). done.
Qed.

(** C10.  On the turn of monster [k - 1], [get_successor] leaves the floor
    sets of coins, daggers and keys, the layout, the player's position, the
    player's coin and key counters and every monster but monster [k - 1] as
    they were: monsters pick nothing up. *)
Theorem monster_turn_frame (s : DungeonState.t) (a : Direction) :
  0 < turn s <= Z.of_nat (length (monsters s)) →
  ∃ s' : DungeonState.t,
    get_successor s a = Some s'
    ∧ coins s' = coins s
    ∧ daggers s' = daggers s
    ∧ keys s' = keys s
    ∧ DungeonState.layout s' = DungeonState.layout s
    ∧ Player.position (player s') = Player.position (player s)
    ∧ Inventory.coins (inv s') = Inventory.coins (inv s)
    ∧ Inventory.keys (inv s') = Inventory.keys (inv s)
    ∧ length (monsters s') = length (monsters s)
    ∧ ∀ j : nat, Z.of_nat j ≠ turn s - 1 → monsters s' !! j = monsters s !! j.
Proof.
  intros Ht.
  destruct (lookup_lt_is_Some_2 (monsters s) (Z.to_nat (turn s - 1))) as [m Hm]; [lia|].
  destruct (get_successor_monster_Some s a (Z.to_nat (turn s - 1)) m)
    as (s' & Hs' & Hl & Hp & Hc & Hd & Hk & Hms); [lia|done|].
  exists s'. unfold inv. rewrite Hs', Hl, Hp, Hc, Hd, Hk, Hms. simpl.
  repeat split; try done.
  - apply length_insert.
  - intros j Hj. apply list_lookup_insert_ne. lia.
Qed.

Lemma monster_turn_frame_witness :
  ∃ s' : DungeonState.t,
    get_successor (Examples.monster_to_move 1) LEFT = Some s'
    ∧ coins s' = {[ (0, 0) ]}
    ∧ Inventory.coins (inv s') = 2
    ∧ monsters s' !! 1%nat = Some (Monster.mk (0, 0) false).
Proof.
  destruct (monster_turn_frame (Examples.monster_to_move 1) LEFT)
    as (s' & Hs' & Hc & _ & _ & _ & _ & Hic & _ & _ & Hms); [simpl; lia|].
  exists s'. split; [done|]. split; [done|]. split; [done|].
  apply (Hms 1%nat). simpl. lia.
Defined.

(** C3.  On the turn of the monster of slot [i] (turn [i + 1]), when the
    monster's new position is the player's: if the player holds at least one
    dagger, that monster and no other gets its alive flag cleared, and the
    dagger count goes down by exactly 1, however many daggers are held; if
    the player holds none, the player's alive flag is cleared and the
    monster's flag stays as it was. *)
Theorem monster_meets_player (s : DungeonState.t) (a : Direction) (i : nat) (m : Monster.t) :
  turn s = Z.of_nat i + 1 →
  monsters s !! i = Some m →
  point_add (Monster.position m) (to_vector a) = Player.position (player s) →
  ∃ s' : DungeonState.t,
    get_successor s a = Some s'
    ∧ (∀ j : nat, j ≠ i → monsters s' !! j = monsters s !! j)
    ∧ (1 <= Inventory.daggers (inv s) →
       monsters s' !! i = Some (Monster.mk (Player.position (player s)) false)
       ∧ Inventory.daggers (inv s') = Inventory.daggers (inv s) - 1
       ∧ Player.alive (player s') = Player.alive (player s))
    ∧ (Inventory.daggers (inv s) = 0 →
       Player.alive (player s') = false
       ∧ monsters s' !! i = Some (Monster.mk (Player.position (player s)) (Monster.alive m))
       ∧ Inventory.daggers (inv s') = 0).
Proof.
  intros Ht Hm Hmeet.
  destruct (get_successor_monster_Some s a i m)
    as (s' & Hs' & _ & Hp & _ & _ & _ & Hms); [done..|].
  assert (i < length (monsters s))%nat as Hi by (by eapply lookup_lt_Some).
  exists s'. unfold inv. rewrite Hs', Hp, Hms. unfold monster_moved.
  rewrite Hmeet, (bool_decide_eq_true_2 (_ = _)) by done. simpl.
  split; [done|]. split; [|split].
  - intros j Hj. by apply list_lookup_insert_ne.
  - intros Hd. rewrite bool_decide_eq_true_2 by (unfold inv; lia). simpl.
    by rewrite list_lookup_insert_eq.
  - intros Hd. rewrite bool_decide_eq_false_2 by (unfold inv; lia). simpl.
    by rewrite list_lookup_insert_eq.
Qed.

Lemma monster_meets_player_witness :
  ∃ s' : DungeonState.t,
    get_successor (Examples.monster_to_move 3) LEFT = Some s'
    ∧ monsters s' !! 0%nat = Some (Monster.mk (1, 0) false)
    ∧ Inventory.daggers (inv s') = 2.
Proof.
  destruct (monster_meets_player (Examples.monster_to_move 3) LEFT 0 (Monster.mk (2, 0) true))
    as (s' & Hs' & _ & Harmed & _); [reflexivity..|].
  exists s'. split; [done|].
  destruct Harmed as (Hm & Hd & _); [simpl; lia|]. done.
Defined.

(** ** The player's turn *)

Lemma take_dagger_count (p : Point) (s : DungeonState.t) :
  Inventory.daggers (inv (take_dagger p s))
  = Inventory.daggers (inv s) + (if bool_decide (p ∈ daggers s) then 1 else 0).
Proof. unfold take_dagger. case_bool_decide; unfold inv; cbn; lia. Qed.

(** How the fight is resolved, from the dagger count it starts with and the
    monsters met. *)
Lemma fight_combat (p : Point) (s : DungeonState.t) :
  let D := Inventory.daggers (inv s) in
  let M := Z.of_nat (length (filter (at_player p) (monsters s))) in
  (M = 0 →
     monsters (fight p s) = monsters s
     ∧ Player.alive (player (fight p s)) = Player.alive (player s)
     ∧ Inventory.daggers (inv (fight p s)) = D)
  ∧ (0 < M → D < M →
     monsters (fight p s) = monsters s
     ∧ Player.alive (player (fight p s)) = false
     ∧ Inventory.daggers (inv (fight p s)) = 0)
  ∧ (0 < M → M <= D →
     monsters (fight p s) =
       ((λ m, if decide (at_player p m)
              then Monster.mk (Monster.position m) false else m) <$> monsters s)
     ∧ Player.alive (player (fight p s)) = Player.alive (player s)
     ∧ Inventory.daggers (inv (fight p s)) = D - M).
Proof.
  unfold fight.
  destruct (filter (at_player p) (monsters s)) as [|m0 met]; simpl.
  - repeat split; (done || lia).
  - case_bool_decide; repeat split; (done || lia).
Qed.

(** How the player's move resolves the fight, in terms of the dagger count
    after the pickups and of the monsters met. *)
Lemma player_action_combat (s : DungeonState.t) (a : Direction) :
  let mid := player_action s a in
  let D := daggers_after_pickup s a in
  let M := Z.of_nat (length (monsters_met s a)) in
  Player.position (player mid) = new_position s a
  ∧ (M = 0 →
     monsters mid = monsters s
     ∧ Player.alive (player mid) = Player.alive (player s)
     ∧ Inventory.daggers (inv mid) = D)
  ∧ (0 < M → D < M →
     monsters mid = monsters s
     ∧ Player.alive (player mid) = false
     ∧ Inventory.daggers (inv mid) = 0)
  ∧ (0 < M → M <= D →
     monsters mid =
       ((λ m, if decide (at_player (new_position s a) m)
              then Monster.mk (Monster.position m) false else m) <$> monsters s)
     ∧ Player.alive (player mid) = Player.alive (player s)
     ∧ Inventory.daggers (inv mid) = D - M).
Proof.
  unfold player_action, daggers_after_pickup, monsters_met, new_position.
  set (p := point_add _ _). set (s0 := set_position s p).
  set (s1 := take_coin p s0). set (s2 := take_dagger p s1). set (s3 := take_key p s2).
  destruct (take_coin_frame p s0) as (_ & _ & _ & Hp1 & Ha1 & Hd1 & _ & Hds1 & _ & Hm1).
  destruct (take_dagger_frame p s1) as (_ & _ & _ & Hp2 & Ha2 & _ & _ & _ & _ & Hm2).
  destruct (take_key_frame p s2) as (_ & _ & _ & Hp3 & Ha3 & Hd3 & _ & _ & _ & Hm3).
  pose proof (take_dagger_count p s1) as Hd2.
  destruct (fight_frame p s3) as (_ & _ & _ & Hp4 & _).
  fold s1 in Hp1, Ha1, Hd1, Hds1, Hm1. fold s2 in Hp2, Ha2, Hm2, Hd2.
  fold s3 in Hp3, Ha3, Hd3, Hm3.
  assert (monsters s3 = monsters s) as Hms by (by rewrite Hm3, Hm2, Hm1).
  assert (Player.alive (player s3) = Player.alive (player s)) as Hal
    by (by rewrite Ha3, Ha2, Ha1).
  assert (Inventory.daggers (inv s3)
          = Inventory.daggers (inv s) + (if bool_decide (p ∈ daggers s) then 1 else 0))
    as Hdg by (by rewrite Hd3, Hd2, Hd1, Hds1).
  pose proof (fight_combat p s3) as Hf. cbv zeta in Hf.
  rewrite Hms, Hal, Hdg in Hf.
  split; [by rewrite Hp4, Hp3, Hp2, Hp1|]. exact Hf.
Qed.

(** C2.  On the player's turn, let [M] be the number of alive monsters on
    the cell the player steps on and [D] the player's dagger count after the
    pickups on that cell.  [get_successor] returns a state in which: if
    [0 < M] and [D < M], the player is dead and holds no dagger; if [0 < M]
    and [M <= D], every one of those [M] monsters is dead (and no other
    monster changed), [D - M] daggers are left and the player's alive flag
    is as it was; if [M = 0], neither an alive flag nor the dagger count
    [D] changes. *)
Theorem player_fights_monsters_met (s : DungeonState.t) (a : Direction) :
  turn s = 0 →
  let D := daggers_after_pickup s a in
  let M := Z.of_nat (length (monsters_met s a)) in
  ∃ s' : DungeonState.t,
    get_successor s a = Some s'
    ∧ (0 < M → D < M →
       Player.alive (player s') = false
       ∧ Inventory.daggers (inv s') = 0
       ∧ monsters s' = monsters s)
    ∧ (0 < M → M <= D →
       (∀ (i : nat) (m : Monster.t),
           monsters s !! i = Some m →
           monsters s' !! i =
             Some (if decide (at_player (new_position s a) m)
                   then Monster.mk (Monster.position m) false else m))
       ∧ Inventory.daggers (inv s') = D - M
       ∧ Player.alive (player s') = Player.alive (player s))
    ∧ (M = 0 →
       monsters s' = monsters s
       ∧ Player.alive (player s') = Player.alive (player s)
       ∧ Inventory.daggers (inv s') = D).
Proof.
  intros Ht D M. rewrite get_successor_player by done.
  destruct (advance_turn_is_Some (player_action s a)) as [s' Hs'].
  { destruct (player_action_frame s a) as (_ & -> & _). lia. }
  exists s'. split; [done|].
  apply advance_turn_inv in Hs' as (_ & _ & _ & Hp & _ & _ & _ & Hms).
  assert (inv s' = inv (player_action s a)) as -> by (unfold inv; by rewrite Hp).
  rewrite Hp, Hms.
  destruct (player_action_combat s a) as (_ & Hnone & Hlose & Hwin).
  split; [|split].
  - intros HM HD. destruct (Hlose HM HD) as (-> & -> & ->). done.
  - intros HM HD. destruct (Hwin HM HD) as (-> & -> & ->).
    split; [|done]. intros i m Hm. by rewrite list_lookup_fmap, Hm.
  - intros HM. destruct (Hnone HM) as (-> & -> & ->). done.
Qed.

Lemma player_fights_monsters_met_witness :
  ∃ s' : DungeonState.t,
    get_successor (Examples.ambush 1) RIGHT = Some s'
    ∧ monsters s' !! 0%nat = Some (Monster.mk (1, 0) false)
    ∧ monsters s' !! 1%nat = Some (Monster.mk (2, 0) false)
    ∧ monsters s' !! 2%nat = Some (Monster.mk (1, 0) false)
    ∧ Inventory.daggers (inv s') = 0
    ∧ Player.alive (player s') = true.
Proof.
  destruct (player_fights_monsters_met (Examples.ambush 1) RIGHT eq_refl)
    as (s' & Hs' & _ & Hwin & _).
  exists s'. split; [done|].
  destruct Hwin as (Hms & Hd & Hal); [by vm_compute..|].
  split; [exact (Hms 0%nat _ eq_refl)|].
  split; [exact (Hms 1%nat _ eq_refl)|].
  split; [exact (Hms 2%nat _ eq_refl)|].
  split; [exact Hd|exact Hal].
Defined.

(** ** The invariants of the data model *)

Lemma take_coin_items (p : Point) (s : DungeonState.t) :
  coins (take_coin p s) ⊆ coins s
  ∧ Inventory.coins (inv s) <= Inventory.coins (inv (take_coin p s)).
Proof.
  unfold take_coin. case_bool_decide; unfold inv; cbn; (split; [|lia]); [|done].
  by apply subseteq_difference_l.
Qed.

Lemma take_dagger_items (p : Point) (s : DungeonState.t) :
  daggers (take_dagger p s) ⊆ daggers s.
Proof.
  unfold take_dagger. case_bool_decide; cbn; [|done].
  by apply subseteq_difference_l.
Qed.

Lemma take_key_items (p : Point) (s : DungeonState.t) :
  keys (take_key p s) ⊆ keys s
  ∧ Inventory.keys (inv s) <= Inventory.keys (inv (take_key p s)).
Proof.
  unfold take_key. case_bool_decide; unfold inv; cbn; (split; [|lia]); [|done].
  by apply subseteq_difference_l.
Qed.

(** The floor only loses items to the player's move, and the player's coin
    and key counters only grow. *)
Lemma player_action_items (s : DungeonState.t) (a : Direction) :
  coins (player_action s a) ⊆ coins s
  ∧ daggers (player_action s a) ⊆ daggers s
  ∧ keys (player_action s a) ⊆ keys s
  ∧ Inventory.coins (inv s) <= Inventory.coins (inv (player_action s a))
  ∧ Inventory.keys (inv s) <= Inventory.keys (inv (player_action s a)).
Proof.
  unfold player_action.
  set (p := point_add _ _). set (s0 := set_position s p).
  set (s1 := take_coin p s0). set (s2 := take_dagger p s1). set (s3 := take_key p s2).
  destruct (fight_frame p s3) as (_ & _ & _ & _ & -> & -> & -> & -> & ->).
  destruct (take_key_frame p s2) as (_ & _ & _ & _ & _ & _ & Hc3 & Hcs3 & Hds3 & _).
  destruct (take_key_items p s2) as (Hks3 & Hk3).
  destruct (take_dagger_frame p s1) as (_ & _ & _ & _ & _ & Hc2 & Hk2 & Hcs2 & Hks2 & _).
  pose proof (take_dagger_items p s1) as Hds2.
  destruct (take_coin_frame p s0) as (_ & _ & _ & _ & _ & _ & Hk1 & Hds1 & Hks1 & _).
  destruct (take_coin_items p s0) as (Hcs1 & Hc1).
  fold s1 in Hk1, Hds1, Hks1, Hcs1, Hc1.
  fold s2 in Hc2, Hk2, Hcs2, Hks2, Hds2.
  fold s3 in Hc3, Hcs3, Hds3, Hks3, Hk3.
  rewrite Hcs3, Hcs2, Hds3, Hc3.
  change (coins s0) with (coins s) in Hcs1.
  change (daggers s0) with (daggers s) in Hds1.
  change (keys s0) with (keys s) in Hks1.
  change (inv s0) with (inv s) in Hc1, Hk1.
  repeat split; try done.
  - by rewrite <- Hds1.
  - by rewrite <- Hks1, <- Hks2.
  - lia.
  - lia.
Qed.

(** A monster alive after the player's move was alive before it, at the same
    place; the list keeps its length. *)
Lemma player_action_monsters (s : DungeonState.t) (a : Direction) :
  length (monsters (player_action s a)) = length (monsters s)
  ∧ ∀ (i : nat) (m' : Monster.t),
      monsters (player_action s a) !! i = Some m' →
      Monster.alive m' = true →
      monsters s !! i = Some m'.
Proof.
  destruct (player_action_combat s a) as (_ & Hnone & Hlose & Hwin).
  set (M := Z.of_nat (length (monsters_met s a))) in *.
  set (D := daggers_after_pickup s a) in *.
  destruct (decide (M = 0)) as [HM|HM]; [destruct (Hnone HM) as (-> & _); done|].
  assert (0 < M) as HM' by lia.
  destruct (decide (D < M)) as [HD|HD]; [destruct (Hlose HM' HD) as (-> & _); done|].
  destruct (Hwin HM') as (-> & _); [lia|].
  split; [by rewrite length_fmap|].
  intros i m'. rewrite list_lookup_fmap.
  destruct (monsters s !! i) as [m|]; [|done]. simpl.
  case_decide; intros [= <-]; [done|done].
Qed.

Lemma player_action_daggers_nonneg (s : DungeonState.t) (a : Direction) :
  0 <= Inventory.daggers (inv s) →
  0 <= Inventory.daggers (inv (player_action s a)).
Proof.
  intros Hd.
  destruct (player_action_combat s a) as (_ & Hnone & Hlose & Hwin).
  assert (0 <= daggers_after_pickup s a) as HD'
    by (unfold daggers_after_pickup; case_bool_decide; lia).
  set (M := Z.of_nat (length (monsters_met s a))) in *.
  set (D := daggers_after_pickup s a) in *.
  destruct (decide (M = 0)) as [HM|HM]; [destruct (Hnone HM) as (_ & _ & ->); done|].
  assert (0 < M) as HM' by lia.
  destruct (decide (D < M)) as [HD|HD]; [destruct (Hlose HM' HD) as (_ & _ & ->); done|].
  destruct (Hwin HM') as (_ & _ & ->); lia.
Qed.

(** After the turn's advance, the turn is the player's or an alive
    monster's. *)
Lemma advance_turn_holder (mid s' : DungeonState.t) :
  0 <= turn mid → advance_turn mid = Some s' → turn_holder_alive s'.
Proof.
  intros Ht (Hn & _ & _ & _ & _ & _ & _ & Hms)%advance_turn_inv.
  unfold turn_holder_alive. rewrite Hms. unfold next_turn in Hn.
  destruct (next_turn_from_scan (monsters mid) _ (Z.to_nat (turn mid)) eq_refl)
    as [[Hs _]|(j & Hs & _ & Hj & _)];
    rewrite Z2Nat.id in Hs by done; rewrite Hs in Hn; injection Hn as Hn.
  - by left.
  - right. by exists j.
Qed.

(** ** Legal actions *)

Lemma elem_of_Direction_members (d : Direction) : d ∈ Direction_members.
Proof. unfold Direction_members. destruct d; set_solver. Qed.

Lemma get_actions_player (s : DungeonState.t) :
  turn s = 0 →
  get_actions s
  = Some (filter
            (λ d, point_add (Player.position (player s)) (to_vector d)
                    ∈ DungeonLayout.walkable (DungeonState.layout s))
            Direction_members).
Proof. intros Ht. unfold get_actions. by rewrite bool_decide_eq_true_2. Qed.

Lemma get_actions_monster (s : DungeonState.t) (i : nat) (m : Monster.t) :
  turn s = Z.of_nat i + 1 →
  monsters s !! i = Some m →
  get_actions s
  = Some (if Monster.alive m then
            filter
              (λ d, point_add (Monster.position m) (to_vector d)
                      ∈ DungeonLayout.walkable (DungeonState.layout s)
                    ∧ point_add (Monster.position m) (to_vector d)
                        ∉ monster_locations (monsters s) (Z.of_nat i))
              Direction_members
          else []).
Proof.
  intros Ht Hm. unfold get_actions. rewrite bool_decide_eq_false_2 by lia.
  replace (turn s - 1) with (Z.of_nat i) by lia.
  rewrite py_getitem_nat, Hm. simpl. by destruct (Monster.alive m).
Qed.

(** ** The successor keeps the invariants *)

Lemma disjoint_shrink (X X' Y Y' : gset Point) :
  X' ⊆ X → Y' ⊆ Y → X ## Y → X' ## Y'.
Proof. set_solver. Qed.

Lemma player_turn_preserves (s : DungeonState.t) (a : Direction) :
  well_formed s →
  turn s = 0 →
  new_position s a ∈ DungeonLayout.walkable (DungeonState.layout s) →
  ∃ s' : DungeonState.t, get_successor s a = Some s' ∧ well_formed s'.
Proof.
  intros Hwf Ht Hwalk. rewrite get_successor_player by done.
  destruct (player_action_frame s a) as (Htime & Hturn & Hlay).
  destruct (advance_turn_is_Some (player_action s a)) as [s' Hs']; [lia|].
  exists s'. split; [done|].
  assert (turn_holder_alive s') as Hholder
    by (apply (advance_turn_holder (player_action s a)); [lia|done]).
  apply advance_turn_inv in Hs' as (_ & Ht' & Hl' & Hp' & Hc' & Hd' & Hk' & Hm').
  destruct (player_action_items s a) as (Hcs & Hds & Hks & Hic & Hik).
  destruct (player_action_combat s a) as (Hpos & _).
  destruct (player_action_monsters s a) as (_ & Hms).
  pose proof (player_action_daggers_nonneg s a (wf_inv_daggers s Hwf)) as Hid.
  destruct Hwf. 
  assert (inv s' = inv (player_action s a)) as Hinv by (unfold inv; by rewrite Hp').
  split; rewrite ?Hl', ?Hlay, ?Hc', ?Hd', ?Hk', ?Hm', ?Hinv; try done.
  - rewrite Ht', Htime. case_bool_decide; lia.
  - by rewrite Hp', Hpos.
  - intros i m Hm Hal. eapply wf_monsters0; [by apply Hms|done].
  - by etrans.
  - by etrans.
  - by etrans.
  - by eapply disjoint_shrink.
  - by eapply disjoint_shrink.
  - by eapply disjoint_shrink.
  - lia.
  - lia.
Qed.

Lemma monster_turn_preserves (s : DungeonState.t) (a : Direction) (i : nat) (m : Monster.t) :
  well_formed s →
  turn s = Z.of_nat i + 1 →
  monsters s !! i = Some m →
  point_add (Monster.position m) (to_vector a)
    ∈ DungeonLayout.walkable (DungeonState.layout s) →
  ∃ s' : DungeonState.t, get_successor s a = Some s' ∧ well_formed s'.
Proof.
  intros Hwf Ht Hm Hwalk. rewrite (get_successor_monster s a i m) by done.
  set (mid := monster_moved s a i m).
  destruct (advance_turn_is_Some mid) as [s' Hs']; [simpl; lia|].
  exists s'. split; [done|].
  assert (turn_holder_alive s') as Hholder
    by (apply (advance_turn_holder mid); [simpl; lia|done]).
  apply advance_turn_inv in Hs' as (_ & Ht' & Hl' & Hp' & Hc' & Hd' & Hk' & Hm').
  assert (inv s' = inv mid) as Hinv by (unfold inv; by rewrite Hp').
  destruct Hwf.
  split; rewrite ?Hl', ?Hc', ?Hd', ?Hk', ?Hm', ?Hinv; try done.
  - rewrite Ht'. simpl. case_bool_decide; lia.
  - by rewrite Hp'.
  - intros j mj. simpl.
    destruct (decide (i = j)) as [<-|Hne].
    + rewrite list_lookup_insert_eq by (by eapply lookup_lt_Some).
      by intros [= <-] _.
    + rewrite list_lookup_insert_ne; [apply wf_monsters0|done].
  - unfold mid, monster_moved, inv. simpl. unfold inv in wf_inv_daggers0.
    repeat case_bool_decide; simpl; lia.
Qed.

(** C6.  From a state that satisfies the invariants of the data model, and
    for an action that [get_actions] offers, [get_successor] returns a state
    that satisfies them again: the player and every alive monster stand on
    walkable cells, and the floor sets of coins, daggers and keys are
    pairwise disjoint (and stay within the walkable cells; the counters stay
    non-negative; the turn is the player's or an alive monster's). *)
Theorem successor_preserves_invariants
    (s : DungeonState.t) (a : Direction) (actions : list Direction) :
  well_formed s →
  get_actions s = Some actions →
  a ∈ actions →
  ∃ s' : DungeonState.t,
    get_successor s a = Some s'
    ∧ well_formed s'
    ∧ Player.position (player s') ∈ DungeonLayout.walkable (DungeonState.layout s')
    ∧ (∀ m : Monster.t,
          m ∈ monsters s' → Monster.alive m = true →
          Monster.position m ∈ DungeonLayout.walkable (DungeonState.layout s'))
    ∧ coins s' ## daggers s' ∧ coins s' ## keys s' ∧ daggers s' ## keys s'.
Proof.
  intros Hwf Hacts Ha.
  enough (∃ s', get_successor s a = Some s' ∧ well_formed s') as (s' & Hs' & Hwf').
  { exists s'. destruct Hwf'. repeat split; try done.
    intros m [i Hi]%list_elem_of_lookup. by apply wf_monsters0 with i. }
  destruct (wf_turn s Hwf) as [Ht|(i & Ht & Hi)].
  - rewrite get_actions_player in Hacts by done. injection Hacts as <-.
    apply list_elem_of_filter in Ha as [Hwalk _].
    by apply player_turn_preserves.
  - unfold is_alive_at in Hi. destruct (monsters s !! i) as [m|] eqn:Hm; [|done].
    rewrite (get_actions_monster s i m) in Hacts by done. injection Hacts as <-.
    rewrite Hi in Ha. apply list_elem_of_filter in Ha as [[Hwalk _] _].
    by apply (monster_turn_preserves s a i m).
Qed.

Lemma standoff_well_formed : well_formed Examples.standoff.
Proof.
  split; simpl; try lia.
  - set_solver.
  - by left.
  - set_solver.
  - intros [|[|i]] m; simpl; [|done..]. intros [= <-] _. simpl. set_solver.
  - set_solver.
  - set_solver.
  - set_solver.
  - set_solver.
  - set_solver.
  - set_solver.
Qed.

Lemma successor_preserves_invariants_witness :
  ∃ s' : DungeonState.t,
    get_successor Examples.standoff RIGHT = Some s' ∧ well_formed s'.
Proof.
  destruct (successor_preserves_invariants Examples.standoff RIGHT [RIGHT; NONE])
    as (s' & Hs' & Hwf & _).
  - exact standoff_well_formed.
  - vm_compute. reflexivity.
  - apply list_elem_of_here.
  - exists s'. split; [exact Hs'|exact Hwf].
Defined.

Lemma next_turn_visits_alive_in_order_witness :
  next_turn (Examples.ambush 0) = Some 1
  ∧ turns_until_player 4 (set_turn (Examples.ambush 0) 0) = Some [1; 3].
Proof.
  destruct (next_turn_visits_alive_in_order (Examples.ambush 0)) as (Hfirst & _ & Hround);
    [simpl; lia|].
  split.
  - apply (Hfirst 0%nat); [simpl; lia|reflexivity|intros j _ Hj; lia].
  - reflexivity.
Defined.

(** ** What [get_actions] offers *)

Lemma elem_of_monster_locations (ms : list Monster.t) (index : Z) (p : Point) :
  p ∈ monster_locations ms index
  ↔ ∃ (j : nat) (m : Monster.t),
      Z.of_nat j ≠ index ∧ ms !! j = Some m
      ∧ Monster.alive m = true ∧ Monster.position m = p.
Proof.
  unfold monster_locations, enumerate.
  rewrite elem_of_list_to_set, list_elem_of_fmap. split.
  - intros ([z m] & -> & [[Hne Hal] Hin]%list_elem_of_filter).
    apply list_elem_of_lookup in Hin as [j Hj].
    rewrite list_lookup_imap in Hj.
    destruct (ms !! j) as [m'|] eqn:Hm'; [|done].
    injection Hj as <- <-. by exists j, m'.
  - intros (j & m & Hne & Hm & Hal & <-).
    exists (Z.of_nat j, m). split; [done|].
    apply list_elem_of_filter. split; [done|].
    apply list_elem_of_lookup. exists j. by rewrite list_lookup_imap, Hm.
Qed.

(** C1, as the code has it.  [get_actions] goes through all five members
    of [Direction], [NONE] among them.  On the player's turn it offers a
    direction exactly when the cell it leads to is walkable; on the turn of
    an alive monster, exactly when that cell is walkable and no other alive
    monster stands on it; a dead monster is offered nothing.  [NONE] leads to
    the mover's own cell, so it is offered whenever that cell is walkable
    (and, for a monster, not shared with another alive monster). *)
Theorem get_actions_offers (s : DungeonState.t) :
  (turn s = 0 →
   ∃ actions : list Direction,
     get_actions s = Some actions
     ∧ (∀ d : Direction,
           d ∈ actions ↔
           new_position s d ∈ DungeonLayout.walkable (DungeonState.layout s))
     ∧ (NONE ∈ actions ↔
        Player.position (player s) ∈ DungeonLayout.walkable (DungeonState.layout s)))
  ∧ (∀ (i : nat) (m : Monster.t),
        turn s = Z.of_nat i + 1 →
        monsters s !! i = Some m →
        ∃ actions : list Direction,
          get_actions s = Some actions
          ∧ (∀ d : Direction,
                d ∈ actions ↔
                Monster.alive m = true
                ∧ point_add (Monster.position m) (to_vector d)
                    ∈ DungeonLayout.walkable (DungeonState.layout s)
                ∧ ¬ ∃ (j : nat) (m' : Monster.t),
                      j ≠ i ∧ monsters s !! j = Some m'
                      ∧ Monster.alive m' = true
                      ∧ Monster.position m'
                        = point_add (Monster.position m) (to_vector d))).
Proof.
  split.
  - intros Ht. eexists. split; [by apply get_actions_player|].
    assert (∀ d, d ∈ filter
                   (λ d, point_add (Player.position (player s)) (to_vector d)
                           ∈ DungeonLayout.walkable (DungeonState.layout s))
                   Direction_members
                 ↔ new_position s d ∈ DungeonLayout.walkable (DungeonState.layout s))
      as Hall.
    { intros d. rewrite list_elem_of_filter. unfold new_position.
      pose proof (elem_of_Direction_members d). tauto. }
    split; [done|]. rewrite Hall. unfold new_position, point_add. simpl.
    destruct (Player.position (player s)) as [x y]. simpl.
    by rewrite !Z.add_0_r.
  - intros i m Ht Hm. eexists. split; [by apply get_actions_monster|].
    intros d. destruct (Monster.alive m).
    + rewrite list_elem_of_filter, elem_of_monster_locations.
      pose proof (elem_of_Direction_members d) as Hd.
      split.
      * intros [[Hw Hfree] _]. split; [done|]. split; [done|].
        intros (j & m' & Hj & Hm' & Hal & Hpos). apply Hfree.
        exists j, m'. split; [lia|done].
      * intros (_ & Hw & Hfree). split; [|done]. split; [done|].
        intros (j & m' & Hj & Hm' & Hal & Hpos). apply Hfree.
        exists j, m'. split; [lia|done].
    + split; [by intros ?%not_elem_of_nil|by intros [? _]].
Qed.

Lemma get_actions_offers_witness :
  ∃ actions : list Direction,
    get_actions Examples.start = Some actions
    ∧ (NONE ∈ actions ↔ (0, 0) ∈ DungeonLayout.walkable Examples.corridor).
Proof.
  destruct (get_actions_offers Examples.start) as [Hplayer _].
  destruct (Hplayer eq_refl) as (actions & Hacts & _ & Hnone).
  exists actions. split; [exact Hacts|exact Hnone].
Defined.

(** C1 as stated fails: at the start of the corridor level [get_actions]
    offers [NONE] to the player, and it offers [NONE] to a monster too. *)
Lemma get_actions_offers_NONE :
  get_actions Examples.start = Some [RIGHT; NONE]
  ∧ get_actions (Examples.monster_to_move 0) = Some [LEFT; NONE]
  ∧ ¬ (∀ (s : DungeonState.t) (actions : list Direction),
          get_actions s = Some actions → NONE ∉ actions).
Proof.
  assert (get_actions Examples.start = Some [RIGHT; NONE]) as Hstart
    by (vm_compute; reflexivity).
  split; [exact Hstart|]. split; [vm_compute; reflexivity|].
  intros Hnever. apply (Hnever _ _ Hstart).
  apply list_elem_of_further, list_elem_of_here.
Qed.

(** ** Terminal states and payoffs *)

Lemma fmap_const_replicate {A B : Type} (c : B) (l : list A) :
  (λ _, c) <$> l = replicate (length l) c.
Proof. induction l as [|x l IH]; [done|]. simpl. by rewrite <- IH. Qed.

Lemma win_spec (g : DungeonGame.t) (s : DungeonState.t) :
  win g s = true
  ↔ Inventory.keys (inv s) ≠ 0
    ∧ Player.position (player s) = DungeonLayout.exit (DungeonGame.layout g).
Proof.
  unfold win. rewrite andb_true_iff, !bool_decide_eq_true. done.
Qed.

(** [score] raises exactly when one of its two conversions does. *)
Lemma score_None `{HostFloat} (s : DungeonState.t) :
  score s = None ↔ float_of_int (time s) = None ∨ float_of_int (points s) = None.
Proof.
  unfold score.
  destruct (float_of_int (time s)); destruct (float_of_int (points s)); simpl;
    naive_solver.
Qed.

(** C4.  In the states where the player holds a key and stands on the exit,
    and only there, [is_terminal] returns [(true, payoffs)] with
    [LARGE + score] for the player and its negation for every monster; it
    does so whenever [score] returns, and raises when [score] raises, which
    is when [time] or [coins + 10 * dead] is too large for a float.  In the
    other states it returns [(true, payoffs)] with [-LARGE] for the player
    and [LARGE] for every monster when the player is dead, and
    [(false, None)] when the player is alive.  [LARGE] is the float [1e8]. *)
Theorem is_terminal_cases `{HostFloat} (g : DungeonGame.t) (s : DungeonState.t) :
  let won :=
    Inventory.keys (inv s) ≠ 0
    ∧ Player.position (player s) = DungeonLayout.exit (DungeonGame.layout g) in
  (won →
   ∀ total : float, score s = Some total →
     let value := fadd float_1e8 total in
     is_terminal g s
     = Some (true, Some (value :: replicate (length (monsters s)) (fneg value))))
  ∧ (won →
     float_of_int (time s) = None ∨ float_of_int (points s) = None →
     is_terminal g s = None)
  ∧ (¬ won → Player.alive (player s) = false →
     is_terminal g s
     = Some (true, Some (fneg float_1e8 :: replicate (length (monsters s)) float_1e8)))
  ∧ (¬ won → Player.alive (player s) = true → is_terminal g s = Some (false, None)).
Proof.
  intros won. unfold is_terminal.
  destruct (win g s) eqn:Hwin.
  - apply win_spec in Hwin.
    split; [intros _ total ->; simpl; by rewrite fmap_const_replicate|].
    split; [by intros _ ->%score_None|].
    split; intros Hnot; by destruct Hnot.
  - assert (¬ won) as Hnot
      by (intros Hwon; apply (win_spec g s) in Hwon; by rewrite Hwon in Hwin).
    rewrite fmap_const_replicate.
    split; [by intros ?|]. split; [by intros ?|]. split; intros _ ->; done.
Qed.

Lemma is_terminal_cases_witness :
  @is_terminal Binary64.arithmetic Examples.exit_game (Examples.at_exit 1 true)
  = Some (true,
          Some [Examples.win_payoff; PrimFloat.opp Examples.win_payoff;
                PrimFloat.opp Examples.win_payoff]).
Proof.
  destruct (@is_terminal_cases Binary64.arithmetic
              Examples.exit_game (Examples.at_exit 1 true)) as [Hwin _].
  refine (Hwin _ (FloatOps.SF2Prim (SpecFloat.S754_finite false 25 (-1))) _).
  - split; [simpl; lia|reflexivity].
  - vm_compute. reflexivity.
Defined.

(** ** The monster agent *)

Section MonsterAgentProperties.
Context `{RandomGenerator}.

Lemma select_new_action_resampled (self : MonsterAgent.t) (actions : list Direction) :
  int_draws_in_range →
  ∃ self1 : MonsterAgent.t,
    MonsterAgent.__select_new_action self actions = Some self1
    ∧ MonsterAgent.steps self1 = 0
    ∧ resampled (MonsterAgent.rng self) actions
        (MonsterAgent.mk (MonsterAgent.rng self1) (MonsterAgent.current_direction self1)
           (MonsterAgent.steps self1 + 1)).
Proof.
  intros Hrange. unfold MonsterAgent.__select_new_action, resampled.
  destruct (filter (λ action, action ≠ NONE) actions) as [|d0 movement] eqn:Hmov.
  - eexists. split; [done|]. simpl. split; [done|]. split; [done|]. split; [done|done].
  - set (l := d0 :: movement) in *. simpl MonsterAgent.rng.
    pose proof (Hrange (MonsterAgent.rng self) 0 (Z.of_nat (length l) - 1)) as Hi.
    destruct (rng_int (MonsterAgent.rng self) 0 (Z.of_nat (length l) - 1)) as [i g] eqn:Hdraw.
    simpl in Hi. assert (0 <= i < Z.of_nat (length l)) as Hi' by (simpl in *; lia).
    assert (py_getitem l i = l !! Z.to_nat i) as ->
      by (rewrite <- py_getitem_nat; f_equal; lia).
    destruct (lookup_lt_is_Some_2 l (Z.to_nat i)) as [d Hd]; [lia|].
    rewrite Hd. simpl. eexists. split; [done|]. simpl.
    split; [done|]. split; [done|]. split; [done|].
    intros _. exists i. split; [done|]. split; [done|].
    by eapply list_elem_of_lookup_2.
Qed.

(** C9.  A call of [act] on a state whose legal actions are [actions].  If
    the committed direction is [NONE] or is not in [actions], the agent
    resamples without drawing a float.  Otherwise it draws one and computes
    the threshold [2**(-steps / min(width, height))]: if the division or
    the power raises, so does the call; if not, the agent resamples exactly
    when the draw exceeds the threshold, and otherwise keeps direction and
    generator while the step counter grows by 1.  A resample takes the
    movement action at the index the generator draws in [[0, len - 1]], or
    [NONE] when there is no movement action, and resets the step counter, so
    that it is 1 at the end of the call.  In every call that returns, the
    direction returned is the one the agent is committed to afterwards. *)
Theorem act_resamples
    (self : MonsterAgent.t) (s : DungeonState.t) (actions : list Direction) :
  int_draws_in_range →
  get_actions s = Some actions →
  (MonsterAgent.current_direction self = NONE
   ∨ MonsterAgent.current_direction self ∉ actions →
   ∃ self' : MonsterAgent.t,
     MonsterAgent.act self s = Some (MonsterAgent.current_direction self', self')
     ∧ resampled (MonsterAgent.rng self) actions self')
  ∧ (MonsterAgent.current_direction self ≠ NONE →
     MonsterAgent.current_direction self ∈ actions →
     let m := Z.min (DungeonLayout.width (DungeonState.layout s))
                    (DungeonLayout.height (DungeonState.layout s)) in
     let x := (rng_float (MonsterAgent.rng self)).1 in
     let g := (rng_float (MonsterAgent.rng self)).2 in
     (∀ quotient threshold : float,
        m ≠ 0 →
        int_truediv (- MonsterAgent.steps self) m = Some quotient →
        int_pow_float 2 quotient = Some threshold →
        ∃ self' : MonsterAgent.t,
          MonsterAgent.act self s = Some (MonsterAgent.current_direction self', self')
          ∧ if fgt x threshold
            then resampled g actions self'
            else self' = MonsterAgent.mk g (MonsterAgent.current_direction self)
                           (MonsterAgent.steps self + 1))
     ∧ (m = 0
        ∨ int_truediv (- MonsterAgent.steps self) m = None
        ∨ (∃ quotient : float,
             int_truediv (- MonsterAgent.steps self) m = Some quotient
             ∧ int_pow_float 2 quotient = None) →
        MonsterAgent.act self s = None)).
Proof.
  intros Hrange Hacts. unfold MonsterAgent.act. rewrite Hacts. simpl. split.
  - intros Hforced.
    destruct (select_new_action_resampled self actions Hrange) as (self1 & Hsel & _ & Hres).
    exists (MonsterAgent.mk (MonsterAgent.rng self1) (MonsterAgent.current_direction self1)
              (MonsterAgent.steps self1 + 1)).
    split; [|done].
    case_bool_decide; [by rewrite Hsel|].
    rewrite bool_decide_eq_true_2 by tauto. by rewrite Hsel.
  - intros Hcommitted Hlegal.
    rewrite (bool_decide_eq_false_2 (_ = NONE)) by done.
    rewrite (bool_decide_eq_false_2 (_ ∉ _)) by tauto.
    unfold MonsterAgent.tired.
    destruct (rng_float (MonsterAgent.rng self)) as [x g] eqn:Hdraw.
    cbn [fst snd MonsterAgent.steps]. split.
    + intros quotient threshold Hm Hq Hth.
      rewrite bool_decide_eq_false_2 by done. rewrite Hq. simpl. rewrite Hth. simpl.
      destruct (fgt x threshold) eqn:Htired.
      * destruct (select_new_action_resampled
                    (MonsterAgent.mk g (MonsterAgent.current_direction self)
                       (MonsterAgent.steps self)) actions Hrange)
          as (self1 & Hsel & _ & Hres).
        rewrite Hsel. simpl.
        exists (MonsterAgent.mk (MonsterAgent.rng self1)
                  (MonsterAgent.current_direction self1) (MonsterAgent.steps self1 + 1)).
        split; [done|]. exact Hres.
      * simpl.
        exists (MonsterAgent.mk g (MonsterAgent.current_direction self)
                  (MonsterAgent.steps self + 1)).
        split; [done|]. done.
    + intros [Hm|[Hq|(quotient & Hq & Hth)]].
      * by rewrite bool_decide_eq_true_2.
      * case_bool_decide; [done|]. by rewrite Hq.
      * case_bool_decide; [done|]. rewrite Hq. simpl. by rewrite Hth.
Qed.
End MonsterAgentProperties.

Lemma counting_in_range (gt : Examples.term → Examples.term → bool) :
  @int_draws_in_range _ (Examples.counting gt).
Proof.
  intros n l h Hlh. simpl.
  pose proof (Z.mod_pos_bound (Z.of_nat n) (h - l + 1)). lia.
Qed.

Lemma act_resamples_witness :
  (∃ self' : @MonsterAgent.t _ (Examples.counting (λ _ _, false)),
     MonsterAgent.act (MonsterAgent.mk (3%nat : @generator _ (Examples.counting (λ _ _, false)))
                         RIGHT 7)
       (Examples.monster_to_move 0)
     = Some (MonsterAgent.current_direction self', self')
     ∧ MonsterAgent.current_direction self' = LEFT
     ∧ MonsterAgent.steps self' = 1)
  ∧ MonsterAgent.act (MonsterAgent.mk (3%nat : @generator _ (Examples.counting (λ _ _, false)))
                        LEFT 7)
      (Examples.monster_to_move 0)
    = Some (LEFT,
            MonsterAgent.mk (4%nat : @generator _ (Examples.counting (λ _ _, false))) LEFT 8).
Proof.
  split.
  - destruct (@act_resamples _ (Examples.counting (λ _ _, false))
                (MonsterAgent.mk (3%nat : @generator _ (Examples.counting (λ _ _, false)))
                   RIGHT 7)
                (Examples.monster_to_move 0) [LEFT; NONE]) as [Hforced _].
    + apply counting_in_range.
    + vm_compute. reflexivity.
    + destruct Hforced as (self' & Hact & Hsteps & _ & Hpick).
      * right. simpl. intros Hin. apply elem_of_cons in Hin as [Hin|Hin]; [done|].
        apply elem_of_cons in Hin as [Hin|Hin]; [done|].
        by apply not_elem_of_nil in Hin.
      * exists self'. split; [exact Hact|]. split; [|exact Hsteps].
        destruct Hpick as (i & _ & _ & Hin); [done|].
        apply elem_of_cons in Hin as [Hin|Hin]; [done|].
        by apply not_elem_of_nil in Hin.
  - destruct (@act_resamples _ (Examples.counting (λ _ _, false))
                (MonsterAgent.mk (3%nat : @generator _ (Examples.counting (λ _ _, false)))
                   LEFT 7)
                (Examples.monster_to_move 0) [LEFT; NONE]) as [_ Hcommitted].
    + apply counting_in_range.
    + vm_compute. reflexivity.
    + assert (LEFT ∈ [LEFT; NONE]) as Hlegal by apply list_elem_of_here.
      destruct (Hcommitted ltac:(done) Hlegal) as [Hreturns _].
      destruct (Hreturns (Examples.Truediv (-7) 1)
                  (Examples.Pow 2 (Examples.Truediv (-7) 1)))
        as (self' & Hact & Hkept); [simpl; lia|reflexivity|reflexivity|].
      simpl in Hkept. rewrite Hact, Hkept. reflexivity.
Defined.

(** * Further properties of the engine *)

(** ** Where indexing raises *)

Lemma py_index_None (n : nat) (i : Z) :
  py_index n i = None ↔ ¬ (- Z.of_nat n <= i < Z.of_nat n).
Proof. unfold py_index. repeat case_bool_decide; split; (done || lia). Qed.

Lemma py_index_Some_lt (n : nat) (i : Z) (j : nat) :
  py_index n i = Some j → (j < n)%nat.
Proof.
  unfold py_index. repeat case_bool_decide; intros [= <-]; lia.
Qed.

Lemma py_getitem_None {A : Type} (l : list A) (i : Z) :
  py_getitem l i = None ↔ ¬ (- Z.of_nat (length l) <= i < Z.of_nat (length l)).
Proof.
  unfold py_getitem. rewrite <- py_index_None.
  destruct (py_index (length l) i) as [j|] eqn:Hj; simpl; [|done].
  apply py_index_Some_lt in Hj. apply lookup_lt_is_Some_2 in Hj as [x ->]. done.
Qed.

(** From a negative turn that still indexes the list from its end, the
    loop of [next_turn] returns. *)
Lemma next_turn_from_negative (ms : list Monster.t) (k : nat) (t : Z) :
  - t = Z.of_nat k →
  - Z.of_nat (length ms) <= t →
  is_Some (next_turn_from ms t).
Proof.
  revert t. induction k as [|k IH]; intros t Hk Ht.
  - replace t with (Z.of_nat 0) by lia.
    destruct (next_turn_from_scan ms _ 0 eq_refl) as [[-> _]|(j & -> & _)]; done.
  - rewrite next_turn_from_unfold, bool_decide_eq_true_2 by lia.
    destruct (py_getitem ms t) as [m|] eqn:Hm;
      [|apply py_getitem_None in Hm; lia].
    simpl. destruct (Monster.alive m); [done|]. apply IH; lia.
Qed.

(** From a turn that indexes the list, from either end, [next_turn]
    returns. *)
Lemma next_turn_in_range (s : DungeonState.t) :
  - Z.of_nat (length (monsters s)) <= turn s → is_Some (next_turn s).
Proof.
  intros Hge. destruct (decide (0 <= turn s)) as [Hpos|Hneg].
  - by apply next_turn_is_Some.
  - apply (next_turn_from_negative (monsters s) (Z.to_nat (- turn s)) (turn s)); lia.
Qed.

(** [next_turn] raises [IndexError] exactly when the turn lies below
    [-len(self.monsters)]: a negative turn down to [-len(self.monsters)]
    reads the monsters from the end of the list, as Python indexing does. *)
Theorem next_turn_raises (s : DungeonState.t) :
  next_turn s = None ↔ turn s < - Z.of_nat (length (monsters s)).
Proof.
  split.
  - intros Hnone.
    destruct (decide (turn s < - Z.of_nat (length (monsters s)))) as [|Hge]; [done|].
    destruct (next_turn_in_range s) as [t Ht]; [lia|congruence].
  - intros Hlow. unfold next_turn.
    rewrite next_turn_from_unfold, bool_decide_eq_true_2 by lia.
    assert (py_getitem (monsters s) (turn s) = None) as ->
      by (apply py_getitem_None; lia).
    done.
Qed.

(** [get_actions] and [get_successor] raise on the same states: those whose
    turn is not 0 and for which [turn - 1] is not an index of the monster
    list, in Python's sense.  On every other state both return. *)
Theorem actions_and_successor_raise_together (s : DungeonState.t) (a : Direction) :
  let out_of_range :=
    turn s ≠ 0
    ∧ ¬ (- Z.of_nat (length (monsters s)) <= turn s - 1 < Z.of_nat (length (monsters s))) in
  (get_actions s = None ↔ out_of_range)
  ∧ (get_successor s a = None ↔ out_of_range).
Proof.
  intros out_of_range. unfold out_of_range. split.
  - unfold get_actions. case_bool_decide as Ht; [split; [done|by intros [? _]]|].
    rewrite <- py_getitem_None.
    destruct (py_getitem (monsters s) (turn s - 1)) as [m|]; simpl.
    + destruct (Monster.alive m); simpl; split; (done || by intros [_ ?]).
    + done.
  - unfold get_successor. case_bool_decide as Ht.
    + simpl. split; [|by intros [? _]].
      destruct (advance_turn_is_Some (player_action s a)) as [s' ->]; [|done].
      destruct (player_action_frame s a) as (_ & -> & _). lia.
    + rewrite <- py_index_None.
      destruct (py_index (length (monsters s)) (turn s - 1)) as [j|] eqn:Hj.
      * pose proof (py_index_Some_lt _ _ _ Hj) as Hlt.
        apply lookup_lt_is_Some_2 in Hlt as [m Hm].
        rewrite (monster_action_at s a j m) by done. simpl.
        assert (is_Some (advance_turn (monster_moved s a j m))) as [s' ->];
          [|split; [done|by intros [_ ?]]].
        unfold advance_turn.
        destruct (next_turn_in_range (monster_moved s a j m)) as [t ->].
        -- simpl. rewrite length_insert.
           assert (py_index (length (monsters s)) (turn s - 1) ≠ None) as Hne by congruence.
           rewrite py_index_None in Hne. lia.
        -- simpl. by case_bool_decide.
      * unfold monster_action. rewrite Hj. simpl. done.
Qed.

(** ** What a successor can and cannot change *)

Lemma get_successor_cases (s s' : DungeonState.t) (a : Direction) :
  get_successor s a = Some s' →
  (turn s = 0 ∧ advance_turn (player_action s a) = Some s')
  ∨ (turn s ≠ 0
     ∧ ∃ (j : nat) (m : Monster.t),
         py_index (length (monsters s)) (turn s - 1) = Some j
         ∧ monsters s !! j = Some m
         ∧ advance_turn (monster_moved s a j m) = Some s').
Proof.
  intros (mid & Hmid & Hadv)%get_successor_inv.
  case_bool_decide as Ht.
  - left. by injection Hmid as <-.
  - right. split; [done|].
    apply monster_action_inv in Hmid as (j & m & Hj & Hm & ->). by exists j, m.
Qed.

Lemma player_action_alive (s : DungeonState.t) (a : Direction) :
  Player.alive (player (player_action s a)) = true → Player.alive (player s) = true.
Proof.
  destruct (player_action_combat s a) as (_ & Hnone & Hlose & Hwin).
  set (M := Z.of_nat (length (monsters_met s a))) in *.
  set (D := daggers_after_pickup s a) in *.
  destruct (decide (M = 0)) as [HM|HM]; [destruct (Hnone HM) as (_ & -> & _); done|].
  assert (0 < M) as HM' by lia.
  destruct (decide (D < M)) as [HD|HD]; [destruct (Hlose HM' HD) as (_ & -> & _); done|].
  destruct (Hwin HM') as (_ & -> & _); [lia|done].
Qed.

Lemma successor_monsters_alive (s s' : DungeonState.t) (a : Direction) :
  get_successor s a = Some s' →
  length (monsters s') = length (monsters s)
  ∧ ∀ (i : nat) (m' : Monster.t),
      monsters s' !! i = Some m' → Monster.alive m' = true →
      ∃ m : Monster.t, monsters s !! i = Some m ∧ Monster.alive m = true.
Proof.
  intros [[Ht Hadv]|(Ht & j & m & Hj & Hm & Hadv)]%get_successor_cases;
    apply advance_turn_inv in Hadv as (_ & _ & _ & _ & _ & _ & _ & ->).
  - destruct (player_action_monsters s a) as (-> & Hms).
    split; [done|].
    intros i m' Hm' Hal. exists m'. split; [by apply Hms|done].
  - simpl. rewrite length_insert. split; [done|].
    intros i m'. destruct (decide (j = i)) as [<-|Hne].
    + rewrite list_lookup_insert_eq by (by eapply lookup_lt_Some).
      intros [= <-]. simpl. destruct (_ && _); [done|]. by exists m.
    + rewrite list_lookup_insert_ne by done. intros Hm' Hal. by exists m'.
Qed.

Lemma successor_player_alive (s s' : DungeonState.t) (a : Direction) :
  get_successor s a = Some s' →
  Player.alive (player s') = true → Player.alive (player s) = true.
Proof.
  intros [[Ht Hadv]|(Ht & j & m & Hj & Hm & Hadv)]%get_successor_cases;
    apply advance_turn_inv in Hadv as (_ & _ & _ & -> & _).
  - apply player_action_alive.
  - simpl. destruct (_ && _); [done|done].
Qed.

Lemma successor_layout (s s' : DungeonState.t) (a : Direction) :
  get_successor s a = Some s' → DungeonState.layout s' = DungeonState.layout s.
Proof.
  intros [[Ht Hadv]|(Ht & j & m & Hj & Hm & Hadv)]%get_successor_cases;
    apply advance_turn_inv in Hadv as (_ & _ & -> & _); [|done].
  apply player_action_frame.
Qed.

(** The dead stay dead: a successor never sets an alive flag, neither the
    player's nor a monster's; the monster list keeps its length and the
    layout is the same. *)
Theorem successor_never_revives (s s' : DungeonState.t) (a : Direction) :
  get_successor s a = Some s' →
  DungeonState.layout s' = DungeonState.layout s
  ∧ length (monsters s') = length (monsters s)
  ∧ (Player.alive (player s') = true → Player.alive (player s) = true)
  ∧ ∀ (i : nat) (m' : Monster.t),
      monsters s' !! i = Some m' → Monster.alive m' = true →
      ∃ m : Monster.t, monsters s !! i = Some m ∧ Monster.alive m = true.
Proof.
  intros Hs'. split; [by eapply successor_layout|].
  destruct (successor_monsters_alive s s' a Hs') as (Hlen & Hms).
  split; [done|]. split; [by eapply successor_player_alive|done].
Qed.

Lemma successor_never_revives_witness :
  ∃ s' : DungeonState.t,
    get_successor (Examples.monster_to_move 0) LEFT = Some s'
    ∧ length (monsters s') = 2%nat.
Proof.
  destruct (get_successor (Examples.monster_to_move 0) LEFT) as [s'|] eqn:Hs';
    [|by vm_compute in Hs'].
  exists s'. split; [done|].
  by destruct (successor_never_revives _ _ _ Hs') as (_ & -> & _).
Defined.

(** ** The count of dead monsters *)

Lemma dead_count_acc (ms : list Monster.t) (acc : Z) :
  fold_left (λ acc m, acc + Z.b2z (negb (Monster.alive m))) ms acc
  = acc + dead_count ms.
Proof.
  unfold dead_count. revert acc. induction ms as [|m ms IH]; intros acc; simpl; [lia|].
  rewrite (IH (acc + _)), (IH (0 + _)). lia.
Qed.

Lemma dead_count_cons (m : Monster.t) (ms : list Monster.t) :
  dead_count (m :: ms) = Z.b2z (negb (Monster.alive m)) + dead_count ms.
Proof. unfold dead_count at 1. simpl. by rewrite dead_count_acc. Qed.

Lemma dead_count_filter (ms : list Monster.t) :
  dead_count ms = Z.of_nat (length (filter (λ m, Monster.alive m = false) ms)).
Proof.
  induction ms as [|m ms IH]; [done|].
  rewrite dead_count_cons, filter_cons, IH.
  destruct (Monster.alive m); case_decide; simpl; (done || lia).
Qed.

Lemma dead_count_mono (ms ms' : list Monster.t) :
  Forall2 (λ m m', Monster.alive m' = true → Monster.alive m = true) ms ms' →
  dead_count ms <= dead_count ms'.
Proof.
  induction 1 as [|m m' ms ms' Hm _ IH]; [done|].
  rewrite !dead_count_cons.
  destruct (Monster.alive m'), (Monster.alive m); simpl; try lia;
    by specialize (Hm eq_refl).
Qed.

(** [sum(not monster.alive for monster in self.monsters)], the integer that
    [score] multiplies by 10, is the number of dead monsters; it lies between
    0 and the length of the list, and no successor makes it smaller. *)
Theorem dead_count_never_decreases (s s' : DungeonState.t) (a : Direction) :
  get_successor s a = Some s' →
  dead_count (monsters s)
  = Z.of_nat (length (filter (λ m, Monster.alive m = false) (monsters s)))
  ∧ 0 <= dead_count (monsters s) <= Z.of_nat (length (monsters s))
  ∧ dead_count (monsters s) <= dead_count (monsters s').
Proof.
  intros Hs'. split; [apply dead_count_filter|]. split.
  - rewrite dead_count_filter.
    pose proof (length_filter (λ m, Monster.alive m = false) (monsters s)). lia.
  - destruct (successor_monsters_alive s s' a Hs') as (Hlen & Hms).
    apply dead_count_mono, Forall2_same_length_lookup. split; [done|].
    intros i m m' Hm Hm' Hal.
    destruct (Hms i m' Hm' Hal) as (m0 & Hm0 & Hal0). congruence.
Qed.

Lemma dead_count_never_decreases_witness :
  ∃ s' : DungeonState.t,
    get_successor (Examples.monster_to_move 3) LEFT = Some s'
    ∧ 1 <= dead_count (monsters s').
Proof.
  destruct (get_successor (Examples.monster_to_move 3) LEFT) as [s'|] eqn:Hs';
    [|by vm_compute in Hs'].
  exists s'. split; [done|].
  by destruct (dead_count_never_decreases _ _ _ Hs') as (_ & _ & Hmono).
Defined.

(** ** Pickups *)

Lemma remove_absent (X : gset Point) (p : Point) : p ∉ X → X ∖ {[p]} = X.
Proof. intros Hp. apply difference_disjoint_L. by apply disjoint_singleton_r. Qed.

Lemma size_remove (X : gset Point) (p : Point) :
  Z.of_nat (size (X ∖ {[p]}))
  = Z.of_nat (size X) - (if bool_decide (p ∈ X) then 1 else 0).
Proof.
  case_bool_decide as Hp.
  - rewrite size_difference by set_solver. rewrite size_singleton.
    assert (size X ≠ 0%nat) by (intros ?%size_empty_inv; set_solver). lia.
  - rewrite remove_absent by done. lia.
Qed.

Lemma take_coin_set (p : Point) (s : DungeonState.t) :
  coins (take_coin p s) = coins s ∖ {[p]}
  ∧ Inventory.coins (inv (take_coin p s))
    = Inventory.coins (inv s) + (if bool_decide (p ∈ coins s) then 1 else 0).
Proof.
  unfold take_coin. case_bool_decide; unfold inv; cbn; [done|].
  split; [by rewrite remove_absent|lia].
Qed.

Lemma take_dagger_set (p : Point) (s : DungeonState.t) :
  daggers (take_dagger p s) = daggers s ∖ {[p]}.
Proof. unfold take_dagger. case_bool_decide; cbn; [done|]. by rewrite remove_absent. Qed.

Lemma take_key_set (p : Point) (s : DungeonState.t) :
  keys (take_key p s) = keys s ∖ {[p]}
  ∧ Inventory.keys (inv (take_key p s))
    = Inventory.keys (inv s) + (if bool_decide (p ∈ keys s) then 1 else 0).
Proof.
  unfold take_key. case_bool_decide; unfold inv; cbn; [done|].
  split; [by rewrite remove_absent|lia].
Qed.

(** What the player's move picks up, before the fight. *)
Lemma player_action_pickups (s : DungeonState.t) (a : Direction) :
  let p := new_position s a in
  let mid := player_action s a in
  coins mid = coins s ∖ {[p]}
  ∧ daggers mid = daggers s ∖ {[p]}
  ∧ keys mid = keys s ∖ {[p]}
  ∧ Inventory.coins (inv mid)
    = Inventory.coins (inv s) + (if bool_decide (p ∈ coins s) then 1 else 0)
  ∧ Inventory.keys (inv mid)
    = Inventory.keys (inv s) + (if bool_decide (p ∈ keys s) then 1 else 0).
Proof.
  unfold player_action, new_position.
  set (p := point_add _ _). set (s0 := set_position s p).
  set (s1 := take_coin p s0). set (s2 := take_dagger p s1). set (s3 := take_key p s2).
  cbv zeta.
  destruct (fight_frame p s3) as (_ & _ & _ & _ & -> & -> & -> & -> & ->).
  destruct (take_key_frame p s2) as (_ & _ & _ & _ & _ & _ & Hc3 & Hcs3 & Hds3 & _).
  destruct (take_key_set p s2) as (Hks3 & Hk3).
  destruct (take_dagger_frame p s1) as (_ & _ & _ & _ & _ & Hc2 & Hk2 & Hcs2 & Hks2 & _).
  pose proof (take_dagger_set p s1) as Hds2.
  destruct (take_coin_frame p s0) as (_ & _ & _ & _ & _ & _ & Hk1 & Hds1 & Hks1 & _).
  destruct (take_coin_set p s0) as (Hcs1 & Hc1).
  fold s1 in Hk1, Hds1, Hks1, Hcs1, Hc1.
  fold s2 in Hc2, Hk2, Hcs2, Hks2, Hds2.
  fold s3 in Hc3, Hcs3, Hds3, Hks3, Hk3.
  rewrite Hcs3, Hcs2, Hcs1, Hds3, Hds2, Hds1, Hks3, Hc3, Hc2, Hc1, Hk3, Hk2, Hk1.
  rewrite !Hks2, !Hks1. repeat split.
Qed.

(** The player's move goes where the action's vector leads, whether or not
    that cell is walkable: [get_successor] checks no wall.  Whatever lies on
    the cell is picked up: afterwards none of the floor sets holds the cell,
    and the coin and key counters have grown by 1 for a coin and for a key
    that lay there.  No monster has moved. *)
Theorem player_move_picks_up (s : DungeonState.t) (a : Direction) :
  turn s = 0 →
  let p := new_position s a in
  ∃ s' : DungeonState.t,
    get_successor s a = Some s'
    ∧ Player.position (player s') = p
    ∧ coins s' = coins s ∖ {[p]}
    ∧ daggers s' = daggers s ∖ {[p]}
    ∧ keys s' = keys s ∖ {[p]}
    ∧ Inventory.coins (inv s')
      = Inventory.coins (inv s) + (if bool_decide (p ∈ coins s) then 1 else 0)
    ∧ Inventory.keys (inv s')
      = Inventory.keys (inv s) + (if bool_decide (p ∈ keys s) then 1 else 0)
    ∧ Monster.position <$> monsters s' = Monster.position <$> monsters s.
Proof.
  intros Ht p. rewrite get_successor_player by done.
  destruct (advance_turn_is_Some (player_action s a)) as [s' Hs'].
  { destruct (player_action_frame s a) as (_ & -> & _). lia. }
  exists s'. split; [done|].
  apply advance_turn_inv in Hs' as (_ & _ & _ & Hp & -> & -> & -> & ->).
  assert (inv s' = inv (player_action s a)) as -> by (unfold inv; by rewrite Hp).
  rewrite Hp.
  destruct (player_action_pickups s a) as (-> & -> & -> & -> & ->).
  destruct (player_action_combat s a) as (-> & Hnone & Hlose & Hwin).
  repeat split; try done.
  set (M := Z.of_nat (length (monsters_met s a))) in *.
  set (D := daggers_after_pickup s a) in *.
  destruct (decide (M = 0)) as [HM|HM]; [destruct (Hnone HM) as (-> & _); done|].
  assert (0 < M) as HM' by lia.
  destruct (decide (D < M)) as [HD|HD]; [destruct (Hlose HM' HD) as (-> & _); done|].
  destruct (Hwin HM') as (-> & _); [lia|].
  rewrite <- list_fmap_compose. apply list_fmap_ext.
  intros i m _. simpl. by case_decide.
Qed.

Lemma player_move_picks_up_witness :
  ∃ s' : DungeonState.t,
    get_successor Examples.standoff RIGHT = Some s'
    ∧ Player.position (player s') = (1, 0)
    ∧ Inventory.coins (inv s') = 1.
Proof.
  destruct (player_move_picks_up Examples.standoff RIGHT eq_refl)
    as (s' & Hs' & Hp & _ & _ & _ & Hc & _).
  exists s'. split; [exact Hs'|]. split; [exact Hp|exact Hc].
Defined.

(** Coins and keys are neither made nor lost: through any successor, what
    lies on the floor plus what the player holds stays the same.  Daggers
    are only spent: if the player's dagger count is not negative, floor plus
    held never grows, and the count stays non-negative. *)
Theorem items_conserved (s s' : DungeonState.t) (a : Direction) :
  get_successor s a = Some s' →
  Z.of_nat (size (coins s')) + Inventory.coins (inv s')
  = Z.of_nat (size (coins s)) + Inventory.coins (inv s)
  ∧ Z.of_nat (size (keys s')) + Inventory.keys (inv s')
    = Z.of_nat (size (keys s)) + Inventory.keys (inv s)
  ∧ (0 <= Inventory.daggers (inv s) →
     Z.of_nat (size (daggers s')) + Inventory.daggers (inv s')
     <= Z.of_nat (size (daggers s)) + Inventory.daggers (inv s)
     ∧ 0 <= Inventory.daggers (inv s')).
Proof.
  intros [[Ht Hadv]|(Ht & j & m & Hj & Hm & Hadv)]%get_successor_cases;
    apply advance_turn_inv in Hadv as (_ & _ & _ & Hp & -> & -> & -> & _).
  - assert (inv s' = inv (player_action s a)) as -> by (unfold inv; by rewrite Hp).
    destruct (player_action_pickups s a) as (-> & -> & -> & -> & ->).
    rewrite !size_remove.
    split; [lia|]. split; [lia|]. intros Hd.
    pose proof (player_action_daggers_nonneg s a Hd) as Hnonneg.
    destruct (player_action_combat s a) as (_ & Hnone & Hlose & Hwin).
    set (M := Z.of_nat (length (monsters_met s a))) in *.
    assert (daggers_after_pickup s a
            = Inventory.daggers (inv s)
              + (if bool_decide (new_position s a ∈ daggers s) then 1 else 0)) as HD
      by done.
    set (D := daggers_after_pickup s a) in *.
    split; [|done].
    destruct (decide (M = 0)) as [HM|HM]; [destruct (Hnone HM) as (_ & _ & ->); lia|].
    assert (0 < M) as HM' by lia.
    destruct (decide (D < M)) as [HD'|HD'];
      [destruct (Hlose HM' HD') as (_ & _ & ->); repeat case_bool_decide; lia|].
    destruct (Hwin HM') as (_ & _ & ->); lia.
  - assert (inv s' = inv (monster_moved s a j m)) as -> by (unfold inv; by rewrite Hp).
    simpl. unfold inv in *. simpl.
    split; [done|]. split; [done|].
    repeat case_bool_decide; simpl; lia.
Qed.

Lemma items_conserved_witness :
  ∃ s' : DungeonState.t,
    get_successor Examples.standoff RIGHT = Some s'
    ∧ Z.of_nat (size (coins s')) + Inventory.coins (inv s') = 1 + 0.
Proof.
  destruct (get_successor Examples.standoff RIGHT) as [s'|] eqn:Hs';
    [|by vm_compute in Hs'].
  exists s'. split; [done|].
  destruct (items_conserved _ _ _ Hs') as (Hc & _).
  rewrite Hc. reflexivity.
Defined.

(** ** Whose turn comes next *)

(** From a turn that is not negative, the turn a successor hands over is
    the player's, or that of a monster alive in the new state and later in
    the list than the one that moved: within a round the turn only grows. *)
Theorem successor_turn_holder (s s' : DungeonState.t) (a : Direction) :
  get_successor s a = Some s' →
  0 <= turn s →
  turn s' = 0
  ∨ ∃ i : nat,
      turn s' = Z.of_nat i + 1
      ∧ turn s < turn s' <= Z.of_nat (length (monsters s'))
      ∧ is_alive_at (monsters s') i = true.
Proof.
  intros Hs' Ht.
  assert (∃ mid, turn mid = turn s ∧ advance_turn mid = Some s') as (mid & Htm & Hadv).
  { apply get_successor_cases in Hs' as [[_ Hadv]|(_ & j & m & _ & _ & Hadv)].
    - eexists. split; [|done]. apply player_action_frame.
    - eexists. split; [|done]. done. }
  apply advance_turn_inv in Hadv as (Hn & _ & _ & _ & _ & _ & _ & ->).
  unfold next_turn in Hn. rewrite Htm in Hn.
  destruct (next_turn_from_scan (monsters mid) _ (Z.to_nat (turn s)) eq_refl)
    as [[Hscan _]|(j & Hscan & Hj & Hal & _)];
    rewrite Z2Nat.id in Hscan by done; rewrite Hscan in Hn; injection Hn as Hn.
  - by left.
  - right. exists j. split; [done|]. split; [lia|done].
Qed.

Lemma successor_turn_holder_witness :
  ∃ s' : DungeonState.t,
    get_successor (Examples.ambush 0) LEFT = Some s'
    ∧ (turn s' = 0 ∨ ∃ i : nat, turn s' = Z.of_nat i + 1
                                ∧ 0 < turn s' <= Z.of_nat (length (monsters s'))
                                ∧ is_alive_at (monsters s') i = true).
Proof.
  destruct (get_successor (Examples.ambush 0) LEFT) as [s'|] eqn:Hs';
    [|by vm_compute in Hs'].
  exists s'. split; [done|].
  apply (successor_turn_holder _ _ _ Hs'). simpl. lia.
Defined.

(** ** Payoffs along a game *)

Lemma reachable_monsters_length (g : DungeonGame.t) (s : DungeonState.t) :
  reachable g s →
  length (monsters s) = length (monsters (DungeonGame.initial_state g)).
Proof.
  induction 1 as [|s s' a _ IH Hs']; [done|].
  by destruct (successor_monsters_alive s s' a Hs') as (-> & _).
Qed.

(** When [is_terminal] returns: in every state but a win whose [score]
    raises. *)
Lemma is_terminal_is_Some `{HostFloat} (g : DungeonGame.t) (s : DungeonState.t) :
  is_Some (is_terminal g s) ↔ win g s = false ∨ is_Some (score s).
Proof.
  unfold is_terminal. destruct (win g s).
  - destruct (score s); simpl; split.
    + by right.
    + by intros _.
    + by intros [? ?].
    + intros [?|[? ?]]; done.
  - destruct (negb _); naive_solver.
Qed.

(** In every state a game can come to, [is_terminal] returns unless the
    state is a win whose [score] raises; when it says the game is over the
    payoffs it returns are as many as [agent_count], one for the player and
    one for each monster; when it says the game goes on, it returns no
    payoffs. *)
Theorem payoffs_match_agent_count `{HostFloat}
    (g : DungeonGame.t) (s : DungeonState.t) :
  reachable g s →
  (is_Some (is_terminal g s) ↔ win g s = false ∨ is_Some (score s))
  ∧ ∀ result : bool * option (list float),
      is_terminal g s = Some result →
      result = (false, None)
      ∨ ∃ payoffs : list float,
          result = (true, Some payoffs)
          ∧ Z.of_nat (length payoffs) = agent_count g.
Proof.
  intros Hlen%reachable_monsters_length.
  split; [apply is_terminal_is_Some|].
  intros result. unfold is_terminal, agent_count.
  destruct (win g s); [destruct (score s) as [total|]; [|done]|destruct (negb _)];
    simpl; intros [= <-].
  - right. eexists. split; [done|]. simpl. rewrite length_fmap, Hlen. lia.
  - right. eexists. split; [done|]. simpl. rewrite length_fmap, Hlen. lia.
  - by left.
Qed.

Lemma payoffs_match_agent_count_witness :
  ∃ payoffs : list PrimFloat.float,
    @is_terminal Binary64.arithmetic Examples.exit_game (Examples.at_exit 1 true)
    = Some (true, Some payoffs)
    ∧ Z.of_nat (length payoffs) = 3.
Proof.
  destruct (@payoffs_match_agent_count Binary64.arithmetic
              Examples.exit_game (Examples.at_exit 1 true)) as [_ Hshape].
  - apply reachable_initial.
  - assert (@is_terminal Binary64.arithmetic Examples.exit_game (Examples.at_exit 1 true)
            = Some (true,
                    Some [Examples.win_payoff; PrimFloat.opp Examples.win_payoff;
                          PrimFloat.opp Examples.win_payoff])) as Hterm
      by (vm_compute; reflexivity).
    destruct (Hshape _ Hterm) as [Hgoes_on|(payoffs & Hresult & Hlen)];
      [discriminate Hgoes_on|].
    exists payoffs. split; [|exact Hlen].
    rewrite Hterm. f_equal. exact Hresult.
Defined.

(** Once the player is dead the game is over for good: in that state and in
    every successor of it, [is_terminal] never says that the game goes on,
    and it returns payoffs unless the state is a win whose [score] raises. *)
Theorem dead_player_stays_terminal `{HostFloat}
    (g : DungeonGame.t) (s s' : DungeonState.t) (a : Direction) :
  Player.alive (player s) = false →
  get_successor s a = Some s' →
  ∀ after : DungeonState.t,
    after = s ∨ after = s' →
    (∀ result : bool * option (list float),
       is_terminal g after = Some result → result.1 = true)
    ∧ (win g after = false ∨ is_Some (score after) →
       ∃ payoffs : list float, is_terminal g after = Some (true, Some payoffs)).
Proof.
  intros Hdead Hs'.
  assert (Player.alive (player s') = false) as Hdead'.
  { destruct (Player.alive (player s')) eqn:Hal; [|done].
    pose proof (successor_player_alive s s' a Hs' Hal). congruence. }
  assert (∀ after, Player.alive (player after) = false →
            (∀ result, is_terminal g after = Some result → result.1 = true)
            ∧ (win g after = false ∨ is_Some (score after) →
               ∃ payoffs, is_terminal g after = Some (true, Some payoffs))) as Hover.
  { intros after Hal. unfold is_terminal. rewrite Hal.
    destruct (win g after); simpl.
    - destruct (score after) as [total|]; simpl.
      + split; [by intros result [= <-]|]. intros _. by eexists.
      + split; [done|]. intros [?|[? ?]]; done.
    - split; [by intros result [= <-]|]. intros _. by eexists. }
  intros after [->| ->]; by apply Hover.
Qed.

Lemma dead_player_stays_terminal_witness :
  ∃ (s' : DungeonState.t) (payoffs : list PrimFloat.float),
    get_successor (Examples.at_exit 0 false) LEFT = Some s'
    ∧ @is_terminal Binary64.arithmetic Examples.corridor_game s' = Some (true, Some payoffs).
Proof.
  destruct (get_successor (Examples.at_exit 0 false) LEFT) as [s'|] eqn:Hs';
    [|by vm_compute in Hs'].
  destruct (@dead_player_stays_terminal Binary64.arithmetic
              Examples.corridor_game (Examples.at_exit 0 false) s' LEFT eq_refl Hs' s')
    as [_ Hpayoffs]; [by right|].
  destruct Hpayoffs as [payoffs Hpayoffs].
  - left. vm_compute in Hs'. injection Hs' as <-. reflexivity.
  - by exists s', payoffs.
Defined.

(** ** What the monster agent returns *)

Section MonsterAgentReturns.
Context `{RandomGenerator}.

Lemma py_getitem_elem_of {A : Type} (l : list A) (i : Z) (x : A) :
  py_getitem l i = Some x → x ∈ l.
Proof.
  unfold py_getitem. destruct (py_index (length l) i) as [j|]; [|done].
  simpl. apply list_elem_of_lookup_2.
Qed.

Lemma select_new_action_picks (self self1 : MonsterAgent.t) (actions : list Direction) :
  MonsterAgent.__select_new_action self actions = Some self1 →
  let movement_actions := filter (λ action, action ≠ NONE) actions in
  (movement_actions = [] ∧ MonsterAgent.current_direction self1 = NONE)
  ∨ (movement_actions ≠ [] ∧ MonsterAgent.current_direction self1 ∈ movement_actions).
Proof.
  unfold MonsterAgent.__select_new_action.
  destruct (filter (λ action, action ≠ NONE) actions) as [|d0 movement] eqn:Hmov.
  - intros [= <-]. by left.
  - set (l := d0 :: movement) in *.
    destruct (rng_int _ _ _) as [i g].
    destruct (py_getitem l i) as [d|] eqn:Hd; [|done].
    simpl. intros [= <-]. right. split; [done|]. simpl.
    by eapply py_getitem_elem_of.
Qed.

(** Whenever [act] returns, it returns the direction the agent is then
    committed to; that direction is [NONE] exactly when the state offers no
    movement action, and otherwise it is one of the actions offered. *)
Theorem act_returns_legal
    (self self' : MonsterAgent.t) (s : DungeonState.t)
    (actions : list Direction) (d : Direction) :
  MonsterAgent.act self s = Some (d, self') →
  get_actions s = Some actions →
  d = MonsterAgent.current_direction self'
  ∧ (d = NONE ↔ filter (λ action, action ≠ NONE) actions = [])
  ∧ (d ≠ NONE → d ∈ actions).
Proof.
  intros Hact Hacts. unfold MonsterAgent.act in Hact. rewrite Hacts in Hact.
  simpl in Hact.
  assert (∀ self0 self1,
            MonsterAgent.__select_new_action self0 actions = Some self1 →
            (MonsterAgent.current_direction self1 = NONE
             ↔ filter (λ action, action ≠ NONE) actions = [])
            ∧ (MonsterAgent.current_direction self1 ≠ NONE →
               MonsterAgent.current_direction self1 ∈ actions)) as Hsel.
  { intros self0 self1 [[Hmov Hd]|[Hmov Hd]]%select_new_action_picks.
    - split; [done|]. by intros ?.
    - apply list_elem_of_filter in Hd as Hd'. destruct Hd' as [Hne Hin].
      split; [|done]. split; [done|]. intros Hnil. by rewrite Hnil in Hmov. }
  destruct (bool_decide (MonsterAgent.current_direction self = NONE)) eqn:Hnone.
  { destruct (MonsterAgent.__select_new_action self actions) as [self1|] eqn:Hpick; [|done].
    simpl in Hact. injection Hact as <- <-. simpl. split; [done|]. by eapply Hsel. }
  destruct (bool_decide (MonsterAgent.current_direction self ∉ actions)) eqn:Hillegal.
  { destruct (MonsterAgent.__select_new_action self actions) as [self1|] eqn:Hpick; [|done].
    simpl in Hact. injection Hact as <- <-. simpl. split; [done|]. by eapply Hsel. }
  apply bool_decide_eq_false in Hnone, Hillegal.
  assert (MonsterAgent.current_direction self ∈ actions) as Hin
    by (destruct (decide (MonsterAgent.current_direction self ∈ actions)); tauto).
  unfold MonsterAgent.tired in Hact.
  destruct (rng_float (MonsterAgent.rng self)) as [x g].
  case_bool_decide; [done|].
  destruct (int_truediv _ _) as [quotient|]; [|done]. simpl in Hact.
  destruct (int_pow_float 2 quotient) as [threshold|]; [|done]. simpl in Hact.
  destruct (fgt x threshold).
  - destruct (MonsterAgent.__select_new_action _ actions) as [self1|] eqn:Hpick; [|done].
    simpl in Hact. injection Hact as <- <-. simpl. split; [done|]. by eapply Hsel.
  - simpl in Hact. injection Hact as <- <-. simpl. split; [done|].
    split; [|done]. split; [done|].
    intros Hnil.
    assert (MonsterAgent.current_direction self ∈ filter (λ action, action ≠ NONE) actions)
      as Hf by (by apply list_elem_of_filter).
    rewrite Hnil in Hf. by apply not_elem_of_nil in Hf.
Qed.
End MonsterAgentReturns.

Lemma act_returns_legal_witness :
  ∃ (d : Direction) (self' : @MonsterAgent.t _ (Examples.counting (λ _ _, false))),
    MonsterAgent.act (MonsterAgent.init (0%nat : @generator _ (Examples.counting (λ _ _, false))))
      (Examples.monster_to_move 0)
    = Some (d, self')
    ∧ d ∈ [LEFT; NONE].
Proof.
  destruct (MonsterAgent.act
              (MonsterAgent.init (0%nat : @generator _ (Examples.counting (λ _ _, false))))
              (Examples.monster_to_move 0)) as [[d self']|] eqn:Hact;
    [|by vm_compute in Hact].
  exists d, self'. split; [done|].
  destruct (@act_returns_legal _ (Examples.counting (λ _ _, false)) _ _ _ [LEFT; NONE] _ Hact)
    as (_ & Hnone & Hlegal); [by vm_compute|].
  destruct (decide (d = NONE)) as [->|Hd]; [|by apply Hlegal].
  apply list_elem_of_further, list_elem_of_here.
Defined.

(** * Reading a map *)

(** ** The two loops of [from_text], cell by cell *)

Lemma scan_line_cells (st : scanned) (y : Z) (line : list ascii) :
  scan_line st y line = scan_cells st (imap (λ x c, ((Z.of_nat x, y), c)) line).
Proof.
  unfold scan_line, scan_cells, enumerate.
  enough (∀ (f : nat → Z) st,
            fold_left (λ st xc, scan_cell st (xc.1, y) xc.2) (imap (λ i c, (f i, c)) line) st
            = fold_left (λ st pc, scan_cell st pc.1 pc.2)
                (imap (λ i c, ((f i, y), c)) line) st) as Hgen by apply Hgen.
  induction line as [|c line IH]; intros f st0; [done|].
  rewrite !imap_cons. simpl. apply (IH (f ∘ S)).
Qed.

Lemma scan_cells_app (st : scanned) (cs1 cs2 : list (Point * ascii)) :
  scan_cells st (cs1 ++ cs2) = scan_cells (scan_cells st cs1) cs2.
Proof. apply fold_left_app. Qed.

Lemma scan_lines_cells (lines : list (list ascii)) :
  scan_lines lines = scan_cells (mk_scanned ∅ ∅ ∅ ∅ [] None None) (cells lines).
Proof.
  unfold scan_lines, cells, enumerate.
  generalize (mk_scanned ∅ ∅ ∅ ∅ [] None None).
  enough (∀ (f : nat → Z) st,
            fold_left (λ st yl, scan_line st yl.1 yl.2) (imap (λ i l, (f i, l)) lines) st
            = scan_cells st
                (mjoin (imap (λ i line, imap (λ x c, ((Z.of_nat x, f i), c)) line) lines)))
    as Hgen by (intros st; apply (Hgen Z.of_nat)).
  induction lines as [|line lines IH]; intros f st; [done|].
  rewrite !imap_cons. simpl. rewrite scan_cells_app, <- scan_line_cells.
  apply (IH (f ∘ S)).
Qed.

Lemma elem_of_cells (lines : list (list ascii)) (p : Point) (c : ascii) :
  (p, c) ∈ cells lines ↔ char_at lines p = Some c.
Proof.
  unfold cells, char_at. rewrite list_elem_of_join. split.
  - intros (row & Hin & (y & line & -> & Hline)%elem_of_lookup_imap).
    apply elem_of_lookup_imap in Hin as (x & c' & [= -> ->] & Hc).
    simpl. rewrite bool_decide_eq_true_2 by lia.
    by rewrite !Nat2Z.id, Hline.
  - destruct p as [x y]. simpl. case_bool_decide as Hp; [|done].
    destruct (lines !! Z.to_nat y) as [line|] eqn:Hline; [|done]. simpl.
    intros Hc. exists (imap (λ x c, ((Z.of_nat x, Z.of_nat (Z.to_nat y)), c)) line).
    split.
    + apply elem_of_lookup_imap. exists (Z.to_nat x), c. split; [|done].
      f_equal. f_equal; lia.
    + apply elem_of_lookup_imap. by exists (Z.to_nat y), line.
Qed.

(** ** What one cell adds *)

Lemma scan_cell_spec (st : scanned) (p : Point) (c : ascii) :
  let st' := scan_cell st p c in
  scan_walkable st'
  = (if bool_decide (c ≠ "#"%char) then {[p]} ∪ scan_walkable st else scan_walkable st)
  ∧ scan_coins st'
    = (if bool_decide (c = "$"%char) then {[p]} ∪ scan_coins st else scan_coins st)
  ∧ scan_keys st'
    = (if bool_decide (c = "K"%char) then {[p]} ∪ scan_keys st else scan_keys st)
  ∧ scan_daggers st'
    = (if bool_decide (c = "~"%char) then {[p]} ∪ scan_daggers st else scan_daggers st)
  ∧ scan_monsters st'
    = scan_monsters st
      ++ (if bool_decide (c = "M"%char) then [Monster.mk p true] else [])
  ∧ scan_player st' = (if bool_decide (c = "@"%char) then Some p else scan_player st)
  ∧ scan_exit st' = (if bool_decide (c = "E"%char) then Some p else scan_exit st).
Proof.
  unfold scan_cell. simpl.
  repeat case_bool_decide; simplify_eq; simpl; rewrite ?app_nil_r; done.
Qed.

(** ** What the cells add up to *)

Lemma scan_cells_sets (cs : list (Point * ascii)) (st : scanned) (p : Point) :
  (p ∈ scan_walkable (scan_cells st cs)
   ↔ p ∈ scan_walkable st ∨ ∃ c, (p, c) ∈ cs ∧ c ≠ "#"%char)
  ∧ (p ∈ scan_coins (scan_cells st cs) ↔ p ∈ scan_coins st ∨ (p, "$"%char) ∈ cs)
  ∧ (p ∈ scan_keys (scan_cells st cs) ↔ p ∈ scan_keys st ∨ (p, "K"%char) ∈ cs)
  ∧ (p ∈ scan_daggers (scan_cells st cs) ↔ p ∈ scan_daggers st ∨ (p, "~"%char) ∈ cs).
Proof.
  revert st. induction cs as [|[q c] cs IH]; intros st.
  - simpl. setoid_rewrite elem_of_nil. naive_solver.
  - change (scan_cells st ((q, c) :: cs)) with (scan_cells (scan_cell st q c) cs).
    destruct (IH (scan_cell st q c)) as (Hw & Hc & Hk & Hd).
    destruct (scan_cell_spec st q c) as (Hw1 & Hc1 & Hk1 & Hd1 & _).
    rewrite Hw, Hc, Hk, Hd, Hw1, Hc1, Hk1, Hd1. clear.
    setoid_rewrite elem_of_cons.
    repeat split; repeat case_bool_decide; set_unfold; naive_solver.
Qed.

Lemma scan_cells_monsters (cs : list (Point * ascii)) (st : scanned) :
  scan_monsters (scan_cells st cs)
  = scan_monsters st
    ++ ((λ pc, Monster.mk pc.1 true) <$> filter (λ pc, pc.2 = "M"%char) cs).
Proof.
  revert st. induction cs as [|[q c] cs IH]; intros st.
  - simpl. by rewrite app_nil_r.
  - change (scan_cells st ((q, c) :: cs)) with (scan_cells (scan_cell st q c) cs).
    rewrite IH. destruct (scan_cell_spec st q c) as (_ & _ & _ & _ & -> & _).
    rewrite filter_cons. simpl. case_bool_decide; case_decide; try done.
    + by rewrite <- app_assoc.
    + by rewrite app_nil_r.
Qed.

(** The player and the exit are where the last [@] and the last [E] of the
    scan are; whatever is found comes from a cell, and a tile on the map is
    never missed. *)
Lemma scan_cells_found (cs : list (Point * ascii)) (st : scanned) :
  (∀ q, scan_player (scan_cells st cs) = Some q →
        scan_player st = Some q ∨ (q, "@"%char) ∈ cs)
  ∧ (∀ q, scan_exit (scan_cells st cs) = Some q →
          scan_exit st = Some q ∨ (q, "E"%char) ∈ cs)
  ∧ (∀ p, (p, "@"%char) ∈ cs → is_Some (scan_player (scan_cells st cs)))
  ∧ (∀ p, (p, "E"%char) ∈ cs → is_Some (scan_exit (scan_cells st cs)))
  ∧ (is_Some (scan_player st) → is_Some (scan_player (scan_cells st cs)))
  ∧ (is_Some (scan_exit st) → is_Some (scan_exit (scan_cells st cs))).
Proof.
  revert st. induction cs as [|[q c] cs IH]; intros st.
  - simpl. setoid_rewrite elem_of_nil. naive_solver.
  - change (scan_cells st ((q, c) :: cs)) with (scan_cells (scan_cell st q c) cs).
    destruct (IH (scan_cell st q c)) as (Hp & He & Hp' & He' & Hps & Hes).
    destruct (scan_cell_spec st q c) as (_ & _ & _ & _ & _ & Hp1 & He1).
    rewrite Hp1 in Hp, Hps. rewrite He1 in He, Hes.
    setoid_rewrite elem_of_cons.
    repeat split.
    + intros r Hr. destruct (Hp r Hr) as [Hfound|Hfound]; [|by auto].
      case_bool_decide; simplify_eq; auto.
    + intros r Hr. destruct (He r Hr) as [Hfound|Hfound]; [|by auto].
      case_bool_decide; simplify_eq; auto.
    + intros p [Heq|Hin]; [|by eauto].
      injection Heq as -> <-. apply Hps. rewrite bool_decide_eq_true_2 by done. by eexists.
    + intros p [Heq|Hin]; [|by eauto].
      injection Heq as -> <-. apply Hes. rewrite bool_decide_eq_true_2 by done. by eexists.
    + intros Hs. apply Hps. destruct (bool_decide (c = "@"%char)); [by eexists|done].
    + intros Hs. apply Hes. destruct (bool_decide (c = "E"%char)); [by eexists|done].
Qed.

(** ** What [from_text] builds *)

Lemma from_text_Parsed (text : string) (g : DungeonGame.t) :
  from_text text = Parsed g →
  ∃ (width : Z) (p e : Point),
    py_max ((λ line, Z.of_nat (length line)) <$> text_lines text) = Some width
    ∧ scan_player (scan_lines (text_lines text)) = Some p
    ∧ scan_exit (scan_lines (text_lines text)) = Some e
    ∧ g = DungeonGame.mk
            (DungeonLayout.mk width (Z.of_nat (length (text_lines text)))
               (scan_walkable (scan_lines (text_lines text))) e)
            (DungeonState.mk 0 0
               (DungeonLayout.mk width (Z.of_nat (length (text_lines text)))
                  (scan_walkable (scan_lines (text_lines text))) e)
               (Player.mk p true (Inventory.mk 0 0 0))
               (scan_coins (scan_lines (text_lines text)))
               (scan_daggers (scan_lines (text_lines text)))
               (scan_keys (scan_lines (text_lines text)))
               (scan_monsters (scan_lines (text_lines text)))).
Proof.
  unfold from_text.
  destruct (py_max _) as [width|]; [|done].
  destruct (scan_player _) as [p|], (scan_exit _) as [e|]; try done.
  intros [= <-]. by exists width, p, e.
Qed.

Lemma scan_lines_sets (lines : list (list ascii)) (p : Point) :
  (p ∈ scan_walkable (scan_lines lines) ↔ ∃ c, char_at lines p = Some c ∧ c ≠ "#"%char)
  ∧ (p ∈ scan_coins (scan_lines lines) ↔ char_at lines p = Some "$"%char)
  ∧ (p ∈ scan_keys (scan_lines lines) ↔ char_at lines p = Some "K"%char)
  ∧ (p ∈ scan_daggers (scan_lines lines) ↔ char_at lines p = Some "~"%char).
Proof.
  rewrite scan_lines_cells.
  destruct (scan_cells_sets (cells lines) (mk_scanned ∅ ∅ ∅ ∅ [] None None) p)
    as (Hw & Hc & Hk & Hd).
  rewrite Hw, Hc, Hk, Hd. simpl. rewrite !elem_of_cells.
  setoid_rewrite elem_of_cells.
  repeat split; try (intros [[]%not_elem_of_empty|?]; done); by right.
Qed.

Lemma scan_lines_found (lines : list (list ascii)) :
  (∀ q, scan_player (scan_lines lines) = Some q → char_at lines q = Some "@"%char)
  ∧ (∀ q, scan_exit (scan_lines lines) = Some q → char_at lines q = Some "E"%char)
  ∧ (∀ p, char_at lines p = Some "@"%char → is_Some (scan_player (scan_lines lines)))
  ∧ (∀ p, char_at lines p = Some "E"%char → is_Some (scan_exit (scan_lines lines))).
Proof.
  rewrite scan_lines_cells.
  destruct (scan_cells_found (cells lines) (mk_scanned ∅ ∅ ∅ ∅ [] None None))
    as (Hp & He & Hp' & He' & _).
  setoid_rewrite elem_of_cells in Hp. setoid_rewrite elem_of_cells in He.
  setoid_rewrite elem_of_cells in Hp'. setoid_rewrite elem_of_cells in He'.
  repeat split; [| |done|done].
  - intros q Hq. by destruct (Hp q Hq).
  - intros q Hq. by destruct (He q Hq).
Qed.

Lemma scan_lines_monsters (lines : list (list ascii)) :
  scan_monsters (scan_lines lines)
  = (λ pc, Monster.mk pc.1 true) <$> filter (λ pc, pc.2 = "M"%char) (cells lines).
Proof. rewrite scan_lines_cells, scan_cells_monsters. done. Qed.



(** ** A game read from a text satisfies the invariants *)







(** * Drawing a map *)

Lemma fmap_seqZ_lookup {A : Type} (f : Z → A) (l : list A) :
  (∀ (i : nat) (x : A), l !! i = Some x → f (Z.of_nat i) = x) →
  f <$> seqZ 0 (Z.of_nat (length l)) = l.
Proof.
  intros Hf. apply list_eq. intros i. rewrite list_lookup_fmap.
  destruct (l !! i) as [x|] eqn:Hx.
  - rewrite (lookup_seqZ_lt 0 (Z.of_nat (length l)) i)
      by (apply lookup_lt_Some in Hx; lia).
    simpl. f_equal. rewrite <- (Hf i x Hx). f_equal; lia.
  - rewrite lookup_seqZ_ge; [done|]. apply lookup_ge_None in Hx. lia.
Qed.

(** The tile drawn at a cell of the map, when the state holds what the map
    says. *)
Lemma position_to_str_read
    (s : DungeonState.t) (alive_monsters : gset Point)
    (lines : list (list ascii)) (p : Point) (tile : DungeonTile.t) :
  char_at lines p = Some (DungeonTile.value tile) →
  (∀ q, q ∈ DungeonLayout.walkable (DungeonState.layout s)
        ↔ ∃ c, char_at lines q = Some c ∧ c ≠ "#"%char) →
  (∀ q, q = Player.position (player s) ↔ char_at lines q = Some "@"%char) →
  (∀ q, q ∈ alive_monsters ↔ char_at lines q = Some "M"%char) →
  (∀ q, q = DungeonLayout.exit (DungeonState.layout s) ↔ char_at lines q = Some "E"%char) →
  (∀ q, q ∈ keys s ↔ char_at lines q = Some "K"%char) →
  (∀ q, q ∈ coins s ↔ char_at lines q = Some "$"%char) →
  (∀ q, q ∈ daggers s ↔ char_at lines q = Some "~"%char) →
  position_to_str s alive_monsters p = tile.
Proof.
  intros Hp Hw Hpl Hm He Hk Hc Hd. unfold position_to_str.
  rewrite (bool_decide_ext _ _ (Hpl p)), (bool_decide_ext _ _ (Hm p)),
    (bool_decide_ext _ _ (He p)), (bool_decide_ext _ _ (Hk p)),
    (bool_decide_ext _ _ (Hc p)), (bool_decide_ext _ _ (Hd p)).
  assert (p ∈ DungeonLayout.walkable (DungeonState.layout s)
          ↔ DungeonTile.value tile ≠ "#"%char) as Hwp.
  { rewrite Hw, Hp. split; [by intros (c & [= <-] & ?)|by eauto]. }
  rewrite Hp. clear Hw Hpl Hm He Hk Hc Hd Hp.
  destruct tile; simpl in *;
    repeat (case_bool_decide; simplify_eq; try done);
    try tauto;
    exfalso; match goal with Hwall : _ ∉ _ |- _ => apply Hwall, Hwp; done end.
Qed.

Lemma py_max_elem (l : list Z) (w : Z) : py_max l = Some w → w ∈ l.
Proof.
  destruct l as [|y l]; [done|]. simpl. intros [= <-].
  enough (∀ acc, fold_left Z.max l acc = acc ∨ fold_left Z.max l acc ∈ l) as Hgen.
  { destruct (Hgen y) as [->|Hin]; [apply list_elem_of_here|by apply list_elem_of_further]. }
  induction l as [|z l IH]; intros acc; simpl; [by left|].
  destruct (IH (Z.max acc z)) as [->|Hin].
  - destruct (Z.max_spec acc z) as [[_ ->]|[_ ->]]; [right; apply list_elem_of_here|by left].
  - right. by apply list_elem_of_further.
Qed.

Lemma alive_monsters_read (lines : list (list ascii)) (q : Point) :
  q ∈ (list_to_set
         (Monster.position
            <$> filter (λ m, Monster.alive m = true) (scan_monsters (scan_lines lines)))
       : gset Point)
  ↔ char_at lines q = Some "M"%char.
Proof.
  rewrite elem_of_list_to_set, list_elem_of_fmap, scan_lines_monsters. split.
  - intros (m & -> & [_ Hm]%list_elem_of_filter).
    apply list_elem_of_fmap in Hm as ([r c] & -> & [Hc Hin]%list_elem_of_filter).
    simpl in *. subst c. by apply elem_of_cells.
  - intros Hq. exists (Monster.mk q true). split; [done|].
    apply list_elem_of_filter. split; [done|].
    apply list_elem_of_fmap. exists (q, "M"%char). split; [done|].
    apply list_elem_of_filter. split; [done|]. by apply elem_of_cells.
Qed.

(** Reading a map and drawing it gives the map back.  If the non-blank
    stripped lines of a text are all of one length and made of tiles, with
    one [@] and one [E], then the grid [__str__] draws for the initial state
    of the game read from the text is those very lines, under the header of
    an empty inventory. *)
Theorem drawing_a_read_map (text : string) (g : DungeonGame.t) :
  from_text text = Parsed g →
  drawable (text_lines text) →
  grid (DungeonGame.initial_state g) = text_lines text
  ∧ __str__ (DungeonGame.initial_state g)
    = "Inventory: 0 Key(s), 0 Dagger(s), 0 Coin(s)" +:+ String "010" ""
      +:+ String.concat (String "010" "")
            (String.string_of_list_ascii <$> text_lines text).
Proof.
  intros (width & p & e & Hw & Hp & He & ->)%from_text_Parsed Hdraw.
  set (lines := text_lines text) in *.
  destruct (scan_lines_found lines) as (Hpf & Hef & _).
  pose proof (Hpf p Hp) as Hpc. pose proof (Hef e He) as Hec.
  enough (grid
            (DungeonState.mk 0 0
               (DungeonLayout.mk width (Z.of_nat (length lines))
                  (scan_walkable (scan_lines lines)) e)
               (Player.mk p true (Inventory.mk 0 0 0))
               (scan_coins (scan_lines lines)) (scan_daggers (scan_lines lines))
               (scan_keys (scan_lines lines)) (scan_monsters (scan_lines lines)))
          = lines) as Hgrid.
  { split; [exact Hgrid|]. unfold __str__. simpl DungeonGame.initial_state.
    rewrite Hgrid. reflexivity. }
  assert (∀ line, line ∈ lines → width = Z.of_nat (length line)) as Hwidth.
  { intros line Hline. apply py_max_elem in Hw.
    apply list_elem_of_fmap in Hw as (line' & -> & Hline').
    f_equal. by apply (drawable_rectangular lines Hdraw). }
  unfold grid. cbn [DungeonState.layout DungeonLayout.width DungeonLayout.height
                    DungeonState.monsters].
  apply fmap_seqZ_lookup. intros i line Hline.
  rewrite (Hwidth line) by (by eapply list_elem_of_lookup_2).
  apply fmap_seqZ_lookup. intros j c Hc.
  assert (char_at lines (Z.of_nat j, Z.of_nat i) = Some c) as Hchar.
  { unfold char_at. simpl. rewrite bool_decide_eq_true_2 by lia.
    by rewrite !Nat2Z.id, Hline. }
  destruct (drawable_tiles lines Hdraw _ _ Hchar) as [tile ->].
  f_equal. apply (position_to_str_read _ _ lines); simpl; try done.
  - intros q. apply scan_lines_sets.
  - intros q. split; [by intros ->|].
    intros Hq. by apply (drawable_one_player lines Hdraw).
  - apply alive_monsters_read.
  - intros q. split; [by intros ->|].
    intros Hq. by apply (drawable_one_exit lines Hdraw).
  - intros q. apply scan_lines_sets.
  - intros q. apply scan_lines_sets.
  - intros q. apply scan_lines_sets.
Qed.

Lemma corridor_drawable : drawable (text_lines "@.E").
Proof.
  assert (∀ p c, char_at (text_lines "@.E") p = Some c →
                 (p, c) ∈ [((0, 0), "@"%char); ((1, 0), "."%char); ((2, 0), "E"%char)])
    as Hcells by (intros p c Hpc; by apply elem_of_cells in Hpc).
  split.
  - intros line line' Hl Hl'.
    change (text_lines "@.E") with [["@"; "."; "E"]%char] in Hl, Hl'.
    apply list_elem_of_singleton in Hl, Hl'. by subst.
  - intros p c Hp%Hcells.
    repeat (apply elem_of_cons in Hp as [[= -> ->]|Hp]);
      [by exists DungeonTile.PLAYER|by exists DungeonTile.EMPTY
      |by exists DungeonTile.EXIT|by apply not_elem_of_nil in Hp].
  - intros p q Hp%Hcells Hq%Hcells.
    repeat (apply elem_of_cons in Hp as [[= ->]|Hp]); try done;
      try (by apply not_elem_of_nil in Hp);
      repeat (apply elem_of_cons in Hq as [[= ->]|Hq]); try done;
      by apply not_elem_of_nil in Hq.
  - intros p q Hp%Hcells Hq%Hcells.
    repeat (apply elem_of_cons in Hp as [[= ->]|Hp]); try done;
      try (by apply not_elem_of_nil in Hp);
      repeat (apply elem_of_cons in Hq as [[= ->]|Hq]); try done;
      by apply not_elem_of_nil in Hq.
Qed.

Lemma drawing_a_read_map_witness :
  ∃ g : DungeonGame.t,
    from_text "@.E" = Parsed g
    ∧ __str__ (DungeonGame.initial_state g)
      = "Inventory: 0 Key(s), 0 Dagger(s), 0 Coin(s)" +:+ String "010" "" +:+ "@.E".
Proof.
  destruct (from_text "@.E") as [| |g] eqn:Hg; [by vm_compute in Hg..|].
  exists g. split; [done|].
  destruct (drawing_a_read_map "@.E" g Hg corridor_drawable) as [_ ->].
  reflexivity.
Defined.

(** [from_text] raises exactly on a text without a non-blank line (the
    [max] of no line length); on any other text it builds a game with a
    player position and an exit exactly when the map has an [@] and an
    [E]. *)
Theorem from_text_outcomes (text : string) :
  let lines := text_lines text in
  (from_text text = Raised_ValueError ↔ lines = [])
  ∧ ((∃ g : DungeonGame.t, from_text text = Parsed g)
     ↔ (∃ p : Point, char_at lines p = Some "@"%char)
       ∧ (∃ q : Point, char_at lines q = Some "E"%char)).
Proof.
  intros lines. unfold from_text. fold lines.
  destruct (scan_lines_found lines) as (Hpf & Hef & Hp' & He').
  destruct lines as [|line lines'] eqn:Hlines.
  - simpl. split; [done|]. split; [by intros [g ?]|].
    intros [[p Hp] _]. unfold char_at in Hp. case_bool_decide; [|done].
    by rewrite lookup_nil in Hp.
  - rewrite <- Hlines in *. replace (py_max _) with
      (Some (fold_left Z.max ((λ l : list ascii, Z.of_nat (length l)) <$> lines')
               (Z.of_nat (length line)))) by (by rewrite Hlines).
    split; [split; [|by rewrite Hlines]|].
    + destruct (scan_player _), (scan_exit _); done.
    + split.
      * intros [g Hg].
        destruct (scan_player (scan_lines lines)) as [p|] eqn:Hp; [|done].
        destruct (scan_exit (scan_lines lines)) as [e|] eqn:He; [|done].
        split; [exists p; by apply Hpf|exists e; by apply Hef].
      * intros [[p [p' Hp]%Hp'] [q [e He]%He']]. rewrite Hp, He. by eexists.
Qed.

(** ** The grid of any state *)

Lemma lookup_fmap_seqZ {A : Type} (f : Z → A) (n : Z) (i : nat) :
  Z.of_nat i < n → (f <$> seqZ 0 n) !! i = Some (f (Z.of_nat i)).
Proof.
  intros Hi. rewrite list_lookup_fmap, lookup_seqZ_lt by lia. simpl.
  by rewrite Z.add_0_l.
Qed.

(** The grid of a state has [height] rows of [width] characters.  The
    character drawn at a cell is [#] exactly when the cell is not walkable,
    and [@] exactly when it is the walkable cell of the player: nothing
    hides a wall or the player. *)
Theorem grid_shows_walls_and_player (s : DungeonState.t) (x y : nat) :
  Z.of_nat x < DungeonLayout.width (DungeonState.layout s) →
  Z.of_nat y < DungeonLayout.height (DungeonState.layout s) →
  length (grid s) = Z.to_nat (DungeonLayout.height (DungeonState.layout s))
  ∧ ∃ (row : list ascii) (c : ascii),
      grid s !! y = Some row
      ∧ length row = Z.to_nat (DungeonLayout.width (DungeonState.layout s))
      ∧ row !! x = Some c
      ∧ (c = "#"%char
         ↔ (Z.of_nat x, Z.of_nat y) ∉ DungeonLayout.walkable (DungeonState.layout s))
      ∧ (c = "@"%char
         ↔ (Z.of_nat x, Z.of_nat y) ∈ DungeonLayout.walkable (DungeonState.layout s)
           ∧ (Z.of_nat x, Z.of_nat y) = Player.position (player s)).
Proof.
  intros Hx Hy. unfold grid.
  split; [by rewrite length_fmap, length_seqZ|].
  rewrite lookup_fmap_seqZ by done.
  eexists _, _. split; [done|]. split; [by rewrite length_fmap, length_seqZ|].
  rewrite lookup_fmap_seqZ by done. split; [done|].
  unfold position_to_str.
  repeat (case_bool_decide; simpl); split; (split; [done || tauto|]); try done;
    try (intros [? ?]; done); tauto.
Qed.

Lemma grid_shows_walls_and_player_witness :
  ∃ (row : list ascii) (c : ascii),
    grid Examples.start !! 0%nat = Some row
    ∧ row !! 0%nat = Some c
    ∧ c = "@"%char.
Proof.
  destruct (grid_shows_walls_and_player Examples.start 0 0)
    as (_ & row & c & Hrow & _ & Hc & _ & Hplayer); [simpl; lia..|].
  exists row, c. split; [done|]. split; [done|].
  apply Hplayer. split; [|done]. simpl. set_solver.
Defined.

(** * The score *)

(** ** The integer [score] subtracts from *)





(** ** The float, over a range of counters *)






(** ** The claim on [score] *)

(** The quotient and the power of the host play no part in [score]. *)
Lemma score_any_host (truediv : Z → Z → option PrimFloat.float)
    (pow : Z → PrimFloat.float → option PrimFloat.float) (s : DungeonState.t) :
  @score (Binary64.host truediv pow) s = score64 s.
Proof. reflexivity. Qed.

(** The largest integer that converts to a float is [2^1024 - 2^970 - 1],
    which rounds to the largest float; from [2^1024 - 2^970] on the
    conversion raises. *)
Lemma of_int_overflow :
  Binary64.of_int (2 ^ 1024 - 2 ^ 970 - 1)
  = Some (FloatOps.SF2Prim (SpecFloat.S754_finite false (2 ^ 53 - 1) 971))
  ∧ Binary64.of_int (2 ^ 1024 - 2 ^ 970) = None
  ∧ Binary64.of_int (- (2 ^ 1024 - 2 ^ 970)) = None.
Proof. repeat split; vm_compute; reflexivity. Qed.



